(** * CLegacyLibICU/shims.c: the two pattern lookups over ICU resource bundles

    A shallow embedding of [uatmufmt_getTimePattern] and
    [uatmufmt_getListPattern] (Sources/CLegacyLibICU/shims.c).  The two
    functions mutate a status out-parameter and the caller's output array and
    call into ICU's resource-bundle store; they are written here in a small
    state monad over exactly those three things.  A run that would read or
    write outside an array has no result. *)

From Stdlib Require Import ZArith List String Ascii Bool Lia.
Import ListNotations.
Open Scope string_scope.
Open Scope list_scope.
Open Scope Z_scope.

(** ** Machine types *)

Definition int32 := Z.
Definition UChar := Z.
Definition UErrorCode := Z.

(** ** unicode/utypes.h *)

Definition U_STRING_NOT_TERMINATED_WARNING : UErrorCode := -124.
Definition U_ZERO_ERROR : UErrorCode := 0.
Definition U_ILLEGAL_ARGUMENT_ERROR : UErrorCode := 1.
Definition U_MISSING_RESOURCE_ERROR : UErrorCode := 2.
Definition U_BUFFER_OVERFLOW_ERROR : UErrorCode := 15.

Definition U_SUCCESS (x : UErrorCode) : bool := x <=? U_ZERO_ERROR.
Definition U_FAILURE (x : UErrorCode) : bool := x >? U_ZERO_ERROR.

(** ** unicode/uatimeunitformat.h

    Modelled from the spec: the header that declares the three selector
    enumerations is not among the sources.  The spec fixes their variants
    (three pattern kinds; four styles; four list positions); C numbers the
    enumerators of each from 0 in declaration order.  A selector arrives as a
    plain integer, so values outside the variants can be passed. *)

Definition UATimeUnitTimePattern := Z.
Definition UATIMEUNITTIMEPAT_HM : UATimeUnitTimePattern := 0.
Definition UATIMEUNITTIMEPAT_HMS : UATimeUnitTimePattern := 1.
Definition UATIMEUNITTIMEPAT_MS : UATimeUnitTimePattern := 2.

Definition UATimeUnitStyle := Z.
Definition UATIMEUNITSTYLE_FULL : UATimeUnitStyle := 0.
Definition UATIMEUNITSTYLE_ABBREVIATED : UATimeUnitStyle := 1.
Definition UATIMEUNITSTYLE_NARROW : UATimeUnitStyle := 2.
Definition UATIMEUNITSTYLE_SHORTER : UATimeUnitStyle := 3.

Definition UATimeUnitListPattern := Z.
Definition UATIMEUNITLISTPAT_TWO_ONLY : UATimeUnitListPattern := 0.
Definition UATIMEUNITLISTPAT_END_PIECE : UATimeUnitListPattern := 1.
Definition UATIMEUNITLISTPAT_MIDDLE_PIECE : UATimeUnitListPattern := 2.
Definition UATIMEUNITLISTPAT_START_PIECE : UATimeUnitListPattern := 3.

(** ** The state a call runs in *)

(** One call made to the resource-bundle store. *)
Inductive access : Type :=
| Open (package locale : option string)
| GetByKeyWithFallback (key : string)
| GetStringByKeyWithFallback (key : string)
| Close.

(** [status] is the cell behind the [UErrorCode*] parameter; [result] is the
    caller's array behind the [UChar*] parameter, [None] for a null pointer;
    [accesses] records the resource-bundle calls in the order they are made. *)
Record world : Type := mkWorld {
  status : UErrorCode;
  result : option (list UChar);
  accesses : list access
}.

Definition M (A : Type) : Type := world -> option (A * world).

Definition ret {A} (a : A) : M A := fun w => Some (a, w).

Definition bind {A B} (m : M A) (k : A -> M B) : M B :=
  fun w => match m w with
           | Some (a, w') => k a w'
           | None => None
           end.

Declare Scope shim_scope.
Delimit Scope shim_scope with shim.
Notation "x <- m ;; k" := (bind m (fun x => k))
  (at level 61, m at next level, right associativity) : shim_scope.
Notation "' pat <- m ;; k" := (bind m (fun x => match x with pat => k end))
  (at level 61, pat pattern, m at next level, right associativity) : shim_scope.
Notation "m ;; k" := (bind m (fun _ => k))
  (at level 61, right associativity) : shim_scope.
Open Scope shim_scope.

Definition get_status : M UErrorCode := fun w => Some (status w, w).

Definition set_status (e : UErrorCode) : M unit :=
  fun w => Some (tt, mkWorld e (result w) (accesses w)).

Definition result_is_null : M bool :=
  fun w => Some (match result w with None => true | Some _ => false end, w).

Definition record (a : access) : M unit :=
  fun w => Some (tt, mkWorld (status w) (result w) (accesses w ++ [a])).

(** ** ustring.h and ustr_imp.h

    Modelled from the spec: [u_strncpy] and [u_terminateUChars] are ICU
    routines that the source only calls (the second is declared at line 23).
    They are the spec's String Extractor: copy the resolved string into the
    caller's array up to the capacity, measure, and terminate within capacity.
    The details follow ICU's contract for the two routines: the copy moves at
    most [n] units and stops after a NUL; the terminator is stored only when
    the length is below the capacity, a length equal to the capacity leaves the
    not-terminated warning and a greater one the overflow error, and a status
    that already holds a failure is left alone. *)

(** The copy loop on the two arrays: while [n > 0], move one unit from [src]
    to [dst], stop once the unit moved is NUL, otherwise count [n] down. *)
Fixpoint strncpy_loop (n : nat) (dst src : list UChar) : option (list UChar) :=
  match n with
  | O => Some dst
  | S n' =>
      match src, dst with
      | c :: src', _ :: dst' =>
          if c =? 0 then Some (c :: dst')
          else option_map (cons c) (strncpy_loop n' dst' src')
      | _, _ => None
      end
  end.

Definition u_strncpy (src : option (list UChar)) (n : int32) : M unit :=
  fun w =>
    if n <=? 0 then Some (tt, w)
    else match result w, src with
         | Some dst, Some s =>
             match strncpy_loop (Z.to_nat n) dst s with
             | Some dst' => Some (tt, mkWorld (status w) (Some dst') (accesses w))
             | None => None
             end
         | _, _ => None
         end.

(** [arr[i] = v] *)
Fixpoint store_at (arr : list UChar) (i : nat) (v : UChar) : option (list UChar) :=
  match arr, i with
  | [], _ => None
  | _ :: rest, O => Some (v :: rest)
  | c :: rest, S i' => option_map (cons c) (store_at rest i' v)
  end.

(** [dest[i] = v] through the [result] pointer *)
Definition store_result (i : int32) (v : UChar) : M unit :=
  fun w =>
    match result w with
    | Some dst =>
        if i <? 0 then None
        else match store_at dst (Z.to_nat i) v with
             | Some dst' => Some (tt, mkWorld (status w) (Some dst') (accesses w))
             | None => None
             end
    | None => None
    end.

Definition u_terminateUChars (destCapacity length : int32) : M int32 :=
  st <- get_status ;;
  (if U_SUCCESS st then
     if length <? 0 then ret tt
     else if length <? destCapacity then
       store_result length 0 ;;
       (if st =? U_STRING_NOT_TERMINATED_WARNING
        then set_status U_ZERO_ERROR else ret tt)
     else if length =? destCapacity then
       set_status U_STRING_NOT_TERMINATED_WARNING
     else set_status U_BUFFER_OVERFLOW_ERROR
   else ret tt) ;;
  ret length.

(** ** ures.h and uresimp.h: the resource-bundle store

    The store is ICU's and is taken as given: three functions from the
    arguments and the status on entry to the returned pointer and the status
    on exit.  A bundle pointer is [option B], [None] for null.  The string
    lookup returns the array its pointer refers to, the value it leaves in
    [*len], and the status. *)
Record ResourceStore (B : Type) : Type := {
  rs_open :
    option string -> option string -> UErrorCode -> option B * UErrorCode;
  rs_getByKeyWithFallback :
    option B -> string -> option B -> UErrorCode -> option B * UErrorCode;
  rs_getStringByKeyWithFallback :
    option B -> string -> int32 -> UErrorCode ->
    option (list UChar) * int32 * UErrorCode
}.
Arguments rs_open {B}.
Arguments rs_getByKeyWithFallback {B}.
Arguments rs_getStringByKeyWithFallback {B}.

(** ** The three [switch] statements

    Each maps a selector to its data key; [None] is the [default:] branch. *)

(** [switch (type)] of uatmufmt_getTimePattern, lines 33-38 *)
Definition timePatternKey (type : UATimeUnitTimePattern) : option string :=
  if type =? UATIMEUNITTIMEPAT_HM then Some "hm"
  else if type =? UATIMEUNITTIMEPAT_HMS then Some "hms"
  else if type =? UATIMEUNITTIMEPAT_MS then Some "ms"
  else None.

(** [switch (style)] of uatmufmt_getListPattern, lines 56-62 *)
Definition listStyleKey (style : UATimeUnitStyle) : option string :=
  if style =? UATIMEUNITSTYLE_FULL then Some "unit"
  else if style =? UATIMEUNITSTYLE_ABBREVIATED then Some "unit-short"
  else if style =? UATIMEUNITSTYLE_NARROW then Some "unit-narrow"
  else if style =? UATIMEUNITSTYLE_SHORTER then Some "unit-narrow"
  else None.

(** [switch (type)] of uatmufmt_getListPattern, lines 64-70 *)
Definition listTypeKey (type : UATimeUnitListPattern) : option string :=
  if type =? UATIMEUNITLISTPAT_TWO_ONLY then Some "2"
  else if type =? UATIMEUNITLISTPAT_END_PIECE then Some "end"
  else if type =? UATIMEUNITLISTPAT_MIDDLE_PIECE then Some "middle"
  else if type =? UATIMEUNITLISTPAT_START_PIECE then Some "start"
  else None.

Section Shims.

Context {B : Type} (icu : ResourceStore B).

(** [U_ICUDATA_NAME] names the data package of the ICU build in use. *)
Variable U_ICUDATA_NAME : string.
Definition U_TREE_SEPARATOR_STRING : string := "-".

(** From "common/ureslocs.h" *)
Definition U_ICUDATA_UNIT : string :=
  (U_ICUDATA_NAME ++ U_TREE_SEPARATOR_STRING ++ "unit")%string.

Definition ures_open (package locale : option string) : M (option B) :=
  fun w =>
    let r := rs_open icu package locale (status w) in
    Some (fst r, mkWorld (snd r) (result w) (accesses w ++ [Open package locale])).

Definition ures_getByKeyWithFallback
    (resB : option B) (inKey : string) (fillIn : option B) : M (option B) :=
  fun w =>
    let r := rs_getByKeyWithFallback icu resB inKey fillIn (status w) in
    Some (fst r, mkWorld (snd r) (result w)
                   (accesses w ++ [GetByKeyWithFallback inKey])).

Definition ures_getStringByKeyWithFallback
    (resB : option B) (inKey : string) (len : int32)
  : M (option (list UChar) * int32) :=
  fun w =>
    let r := rs_getStringByKeyWithFallback icu resB inKey len (status w) in
    Some (fst r, mkWorld (snd r) (result w)
                   (accesses w ++ [GetStringByKeyWithFallback inKey])).

Definition ures_close (resB : option B) : M unit := record Close.

(** From "i18n/uatimeunitformat.cpp" *)
Definition uatmufmt_getTimePattern
    (locale : option string) (type : UATimeUnitTimePattern)
    (resultCapacity : int32) : M int32 :=
  st <- get_status ;;
  if U_FAILURE st then ret 0 else
  null <- result_is_null ;;
  if (if null then negb (resultCapacity =? 0) else resultCapacity <? 0) then
    set_status U_ILLEGAL_ARGUMENT_ERROR ;; ret 0
  else
  match timePatternKey type with
  | None => set_status U_ILLEGAL_ARGUMENT_ERROR ;; ret 0
  | Some key =>
      let resLen := 0 in
      rb <- ures_open (Some U_ICUDATA_UNIT) locale ;;
      rb <- ures_getByKeyWithFallback rb "durationUnits" rb ;;
      '(resPtr, resLen) <- ures_getStringByKeyWithFallback rb key resLen ;;
      st <- get_status ;;
      (if U_SUCCESS st then u_strncpy resPtr resultCapacity else ret tt) ;;
      ures_close rb ;;
      u_terminateUChars resultCapacity resLen
  end.

Definition uatmufmt_getListPattern
    (locale : option string) (style : UATimeUnitStyle)
    (type : UATimeUnitListPattern) (resultCapacity : int32) : M int32 :=
  st <- get_status ;;
  if U_FAILURE st then ret 0 else
  null <- result_is_null ;;
  if (if null then negb (resultCapacity =? 0) else resultCapacity <? 0) then
    set_status U_ILLEGAL_ARGUMENT_ERROR ;; ret 0
  else
  match listStyleKey style with
  | None => set_status U_ILLEGAL_ARGUMENT_ERROR ;; ret 0
  | Some styleKey =>
  match listTypeKey type with
  | None => set_status U_ILLEGAL_ARGUMENT_ERROR ;; ret 0
  | Some typeKey =>
      let resLen := 0 in
      rb <- ures_open None locale ;;
      rb <- ures_getByKeyWithFallback rb "listPattern" rb ;;
      rb <- ures_getByKeyWithFallback rb styleKey rb ;;
      '(resPtr, resLen) <- ures_getStringByKeyWithFallback rb typeKey resLen ;;
      st <- get_status ;;
      (if U_SUCCESS st then u_strncpy resPtr resultCapacity else ret tt) ;;
      ures_close rb ;;
      u_terminateUChars resultCapacity resLen
  end
  end.

(** ** The resolution path, in the spec's words

    "Open the bundle, descend into each key in turn, resolve the last key
    through the fallback chain": a fold of the fallback descent over the key
    chain, followed by the string lookup with fallback. *)

Definition descend (h : option B * UErrorCode) (key : string)
  : option B * UErrorCode :=
  rs_getByKeyWithFallback icu (fst h) key (fst h) (snd h).

Definition resolution_path
    (package locale : option string) (chain : list string) (leaf : string)
    (st : UErrorCode) : option (list UChar) * int32 * UErrorCode :=
  let h := fold_left descend chain (rs_open icu package locale st) in
  rs_getStringByKeyWithFallback icu (fst h) leaf 0 (snd h).

(** The store calls a walk down that path makes, in order. *)
Definition path_accesses
    (package locale : option string) (chain : list string) (leaf : string)
  : list access :=
  Open package locale :: map GetByKeyWithFallback chain
    ++ [GetStringByKeyWithFallback leaf].

(** The String Extractor step both functions end with (lines 44-46 and
    77-79), started from the answer of the string lookup. *)
Definition extract_string
    (answer : option (list UChar) * int32) (resultCapacity : int32) : M int32 :=
  st <- get_status ;;
  (if U_SUCCESS st then u_strncpy (fst answer) resultCapacity else ret tt) ;;
  record Close ;;
  u_terminateUChars resultCapacity (snd answer).

End Shims.

Arguments uatmufmt_getTimePattern {B} icu U_ICUDATA_NAME locale type resultCapacity.
Arguments uatmufmt_getListPattern {B} icu locale style type resultCapacity.
Arguments resolution_path {B} icu package locale chain leaf st.

(** ** Notions the properties are stated with *)

(** A status that does not signal failure. *)
Definition succeeded (e : UErrorCode) : Prop := U_FAILURE e = false.

(** The buffer/capacity pairs the argument check lets through: a null buffer
    with capacity 0, a non-null buffer with a capacity that is not negative. *)
Definition accepted_pair (buf : option (list UChar)) (capacity : int32) : Prop :=
  match buf with
  | None => capacity = 0
  | Some _ => 0 <= capacity
  end.

(** A valid buffer/capacity pair: accepted, and the array really holds as many
    units as the capacity declares. *)
Definition valid_pair (buf : option (list UChar)) (capacity : int32) : Prop :=
  match buf with
  | None => capacity = 0
  | Some arr => 0 <= capacity <= Z.of_nat (List.length arr)
  end.

(** A pattern is text: no NUL code unit inside. *)
Definition text (pat : list UChar) : Prop := Forall (fun c => c <> 0) pat.

(** The store's answer is the pattern [pat]: success, a pointer to the
    NUL-terminated string, and its length. *)
Definition resolves_to
    (answer : option (list UChar) * int32 * UErrorCode) (pat : list UChar) : Prop :=
  U_SUCCESS (snd answer) = true /\
  fst (fst answer) = Some (pat ++ [0]) /\
  snd (fst answer) = Z.of_nat (List.length pat).

(** The array holds [pat] followed by NUL within its first [capacity] units. *)
Definition terminated_within
    (pat : list UChar) (capacity : int32) (w : world) : Prop :=
  exists arr rest,
    result w = Some arr /\
    firstn (Z.to_nat capacity) arr = pat ++ 0 :: rest.

(** The first [n] units of the caller's array after a call. *)
Definition content (n : int32) (w : world) : option (list UChar) :=
  option_map (firstn (Z.to_nat n)) (result w).

(** ** The two entry points and the key chains the spec states for them *)

(** A call of either function: which one, with its selectors. *)
Inductive entry : Type :=
| TimePattern (type : UATimeUnitTimePattern)
| ListPattern (style : UATimeUnitStyle) (type : UATimeUnitListPattern).

Definition call {B} (icu : ResourceStore B) (U_ICUDATA_NAME : string)
    (locale : option string) (f : entry) (resultCapacity : int32) : M int32 :=
  match f with
  | TimePattern type =>
      uatmufmt_getTimePattern icu U_ICUDATA_NAME locale type resultCapacity
  | ListPattern style type =>
      uatmufmt_getListPattern icu locale style type resultCapacity
  end.

(** The spec's tables: pattern kind to key, style to key, position to key. *)
Definition kind_keys : list (Z * string) :=
  [(UATIMEUNITTIMEPAT_HM, "hm");
   (UATIMEUNITTIMEPAT_HMS, "hms");
   (UATIMEUNITTIMEPAT_MS, "ms")].

Definition style_keys : list (Z * string) :=
  [(UATIMEUNITSTYLE_FULL, "unit");
   (UATIMEUNITSTYLE_ABBREVIATED, "unit-short");
   (UATIMEUNITSTYLE_NARROW, "unit-narrow");
   (UATIMEUNITSTYLE_SHORTER, "unit-narrow")].

Definition position_keys : list (Z * string) :=
  [(UATIMEUNITLISTPAT_TWO_ONLY, "2");
   (UATIMEUNITLISTPAT_END_PIECE, "end");
   (UATIMEUNITLISTPAT_MIDDLE_PIECE, "middle");
   (UATIMEUNITLISTPAT_START_PIECE, "start")].

Fixpoint key_of (selector : Z) (table : list (Z * string)) : option string :=
  match table with
  | [] => None
  | (v, key) :: rest => if selector =? v then Some key else key_of selector rest
  end.

(** The resolution path the spec states for a call: the package to open, the
    keys to descend, the key of the string.  [None] when a selector is not one
    of the defined variants. *)
Definition stated_path (U_ICUDATA_NAME : string) (f : entry)
  : option (option string * list string * string) :=
  match f with
  | TimePattern type =>
      match key_of type kind_keys with
      | Some key => Some (Some (U_ICUDATA_UNIT U_ICUDATA_NAME), ["durationUnits"], key)
      | None => None
      end
  | ListPattern style type =>
      match key_of style style_keys, key_of type position_keys with
      | Some styleKey, Some typeKey => Some (None, ["listPattern"; styleKey], typeKey)
      | _, _ => None
      end
  end.

(** A selector value outside the defined variants. *)
Definition undefined_selector (f : entry) : Prop :=
  match f with
  | TimePattern type => ~ In type (map fst kind_keys)
  | ListPattern style type =>
      ~ In style (map fst style_keys) \/ ~ In type (map fst position_keys)
  end.

(** The state in which the String Extractor step starts after the walk down
    [path] from the state [w]. *)
Definition looked_up {B} (icu : ResourceStore B) (locale : option string)
    (path : option string * list string * string) (w : world) : world :=
  let '(package, chain, leaf) := path in
  mkWorld (snd (resolution_path icu package locale chain leaf (status w)))
          (result w)
          (accesses w ++ path_accesses package locale chain leaf).

(** The store's answer on [path], entered with the status [st]. *)
Definition answer {B} (icu : ResourceStore B) (locale : option string)
    (path : option string * list string * string) (st : UErrorCode)
  : option (list UChar) * int32 * UErrorCode :=
  let '(package, chain, leaf) := path in
  resolution_path icu package locale chain leaf st.

(** ** Notions for the behaviour around the lookup *)

(** What a call may change in the caller's array: nothing at or behind index
    [capacity], and not its size.  A null pointer stays null. *)
Definition same_beyond
    (capacity : int32) (before after : option (list UChar)) : Prop :=
  match before, after with
  | None, None => True
  | Some arr, Some arr' =>
      List.length arr' = List.length arr /\
      skipn (Z.to_nat capacity) arr' = skipn (Z.to_nat capacity) arr
  | _, _ => False
  end.

(** The store's answer is well formed: either it reports a failure, or it
    points at a NUL-terminated string and reports the string's length. *)
Definition well_formed
    (answer : option (list UChar) * int32 * UErrorCode) : Prop :=
  U_FAILURE (snd answer) = true \/ exists pat, resolves_to answer pat.

(** ICU's convention for a status that already holds a failure: the two
    lookups with fallback leave it as it is. *)
Definition passes_failure {B} (icu : ResourceStore B) : Prop :=
  (forall resB inKey fillIn st,
      U_FAILURE st = true ->
      snd (rs_getByKeyWithFallback icu resB inKey fillIn st) = st) /\
  (forall resB inKey len st,
      U_FAILURE st = true ->
      snd (rs_getStringByKeyWithFallback icu resB inKey len st) = st).

(** A string lookup that fails leaves [*len] as it found it. *)
Definition leaves_length {B} (icu : ResourceStore B) : Prop :=
  forall resB inKey len st,
    U_FAILURE (snd (rs_getStringByKeyWithFallback icu resB inKey len st)) = true ->
    snd (fst (rs_getStringByKeyWithFallback icu resB inKey len st)) = len.

(** ** A fixture store

    Modelled from the spec: a resource store of the shape the data model
    describes (a tree of named children per locale, strings at the leaves) with
    the fallback of the design notes: descend the key path; on a miss replace
    the locale with its parent and retry; fail after the root.  It has two
    fallback levels (en_US, en, root) and serves to run the two functions on
    concrete inputs. *)
Module Fixture.

#[local] Unset Elimination Schemes.
Inductive resource : Type :=
| Text (s : list UChar)
| Table (entries : list (string * resource)).
#[local] Set Elimination Schemes.

(** A bundle handle: the package and locale it was opened for and the keys
    descended so far. *)
Record bundle : Type := mkBundle {
  b_package : option string;
  b_locale : string;
  b_path : list string
}.

Definition utf16 (s : string) : list UChar :=
  map (fun c => Z.of_N (N_of_ascii c)) (list_ascii_of_string s).

Definition U_RESOURCE_TYPE_MISMATCH : UErrorCode := 17.
Definition ICUDATA_NAME : string := "icudt74l".
Definition default_locale : string := "en_US".

Definition parent (locale : string) : option string :=
  if String.eqb locale "root" then None
  else if String.eqb locale "en_US" then Some "en"
  else Some "root".

Fixpoint fallback_chain (fuel : nat) (locale : string) : list string :=
  match fuel with
  | O => []
  | S fuel' =>
      locale :: match parent locale with
                | Some p => fallback_chain fuel' p
                | None => []
                end
  end.

Definition unit_data (locale : string) : option resource :=
  if String.eqb locale "root" then
    Some (Table [("durationUnits",
                  Table [("hm", Text (utf16 "h:mm"));
                         ("hms", Text (utf16 "h:mm:ss"));
                         ("ms", Text (utf16 "m:ss"))])])
  else if String.eqb locale "en" then
    Some (Table [("durationUnits", Table [("hm", Text (utf16 "h.mm"))])])
  else if String.eqb locale "en_US" then Some (Table [])
  else None.

Definition list_data (locale : string) : option resource :=
  if String.eqb locale "root" then
    Some (Table [("listPattern",
                  Table [("unit",
                          Table [("2", Text (utf16 "{0}, {1}"));
                                 ("end", Text (utf16 "{0}, {1}"));
                                 ("middle", Text (utf16 "{0}, {1}"));
                                 ("start", Text (utf16 "{0}, {1}"))]);
                         ("unit-short",
                          Table [("2", Text (utf16 "{0}, {1}"))]);
                         ("unit-narrow",
                          Table [("2", Text (utf16 "{0} {1}"));
                                 ("end", Text (utf16 "{0} {1}"));
                                 ("middle", Text (utf16 "{0} {1}"));
                                 ("start", Text (utf16 "{0} {1}"))])])])
  else if String.eqb locale "en" then
    Some (Table [("listPattern",
                  Table [("unit",
                          Table [("2", Text (utf16 "{0} and {1}"));
                                 ("end", Text (utf16 "{0}, and {1}"))])])])
  else if String.eqb locale "en_US" then Some (Table [])
  else None.

Definition data (package : option string) (locale : string) : option resource :=
  match package with
  | None => list_data locale
  | Some p =>
      if String.eqb p (ICUDATA_NAME ++ "-unit")%string then unit_data locale
      else None
  end.

Fixpoint child (key : string) (entries : list (string * resource))
  : option resource :=
  match entries with
  | [] => None
  | (k, r) :: rest => if String.eqb k key then Some r else child key rest
  end.

Fixpoint walk (r : resource) (path : list string) : option resource :=
  match path with
  | [] => Some r
  | key :: path' =>
      match r with
      | Table entries =>
          match child key entries with
          | Some r' => walk r' path'
          | None => None
          end
      | Text _ => None
      end
  end.

(** The first locale of the chain whose data has the whole path. *)
Fixpoint first_hit (package : option string) (path : list string)
    (locales : list string) : option resource :=
  match locales with
  | [] => None
  | l :: rest =>
      match data package l with
      | Some top =>
          match walk top path with
          | Some r => Some r
          | None => first_hit package path rest
          end
      | None => first_hit package path rest
      end
  end.

Definition lookup (b : bundle) (key : string) : option resource :=
  first_hit (b_package b) (b_path b ++ [key]) (fallback_chain 3 (b_locale b)).

Definition fx_open (package locale : option string) (st : UErrorCode)
  : option bundle * UErrorCode :=
  if U_FAILURE st then (None, st)
  else
    let l := match locale with Some l => l | None => default_locale end in
    match first_hit package [] (fallback_chain 3 l) with
    | Some _ => (Some (mkBundle package l []), st)
    | None => (None, U_MISSING_RESOURCE_ERROR)
    end.

Definition fx_getByKeyWithFallback
    (resB : option bundle) (inKey : string) (fillIn : option bundle)
    (st : UErrorCode) : option bundle * UErrorCode :=
  if U_FAILURE st then (fillIn, st)
  else match resB with
       | None => (fillIn, U_ILLEGAL_ARGUMENT_ERROR)
       | Some b =>
           match lookup b inKey with
           | Some _ =>
               (Some (mkBundle (b_package b) (b_locale b) (b_path b ++ [inKey])), st)
           | None => (fillIn, U_MISSING_RESOURCE_ERROR)
           end
       end.

Definition fx_getStringByKeyWithFallback
    (resB : option bundle) (inKey : string) (len : int32) (st : UErrorCode)
  : option (list UChar) * int32 * UErrorCode :=
  if U_FAILURE st then (None, len, st)
  else match resB with
       | None => (None, len, U_ILLEGAL_ARGUMENT_ERROR)
       | Some b =>
           match lookup b inKey with
           | Some (Text s) => (Some (s ++ [0]), Z.of_nat (List.length s), st)
           | Some (Table _) => (None, len, U_RESOURCE_TYPE_MISMATCH)
           | None => (None, len, U_MISSING_RESOURCE_ERROR)
           end
       end.

Definition store : ResourceStore bundle := {|
  rs_open := fx_open;
  rs_getByKeyWithFallback := fx_getByKeyWithFallback;
  rs_getStringByKeyWithFallback := fx_getStringByKeyWithFallback
|}.

Definition getTimePattern := uatmufmt_getTimePattern store ICUDATA_NAME.
Definition getListPattern := uatmufmt_getListPattern store.
Definition run := call store ICUDATA_NAME.

(** A caller's state: status, a fresh array of the given size (or no array),
    and no store access yet. *)
Definition fresh (st : UErrorCode) (size : option nat) : world :=
  mkWorld st (option_map (fun n => repeat 65535 n) size) [].

End Fixture.

(** A second store for runs: every string lookup that is entered with a
    successful status answers the three units "a", NUL, "b", a string with a
    NUL inside. *)
Definition nul_store : ResourceStore unit := {|
  rs_open := fun _ _ st => (Some tt, st);
  rs_getByKeyWithFallback := fun resB _ _ st => (resB, st);
  rs_getStringByKeyWithFallback := fun _ _ len st =>
    if U_FAILURE st then (None, len, st) else (Some [97; 0; 98; 0], 3, st)
|}.

(** ** Runs on the fixture *)

Example run_hm_root :
  Fixture.getTimePattern (Some "de") UATIMEUNITTIMEPAT_HM 8
    (Fixture.fresh U_ZERO_ERROR (Some 8%nat))
  = Some (4, mkWorld U_ZERO_ERROR
               (Some (Fixture.utf16 "h:mm" ++ [0; 65535; 65535; 65535]))
               [Open (Some "icudt74l-unit") (Some "de");
                GetByKeyWithFallback "durationUnits";
                GetStringByKeyWithFallback "hm"; Close]).
Proof. reflexivity. Qed.

Example run_hm_parent :
  Fixture.getTimePattern (Some "en_US") UATIMEUNITTIMEPAT_HM 0
    (Fixture.fresh U_ZERO_ERROR None)
  = Some (4, mkWorld U_BUFFER_OVERFLOW_ERROR None
               [Open (Some "icudt74l-unit") (Some "en_US");
                GetByKeyWithFallback "durationUnits";
                GetStringByKeyWithFallback "hm"; Close]).
Proof. reflexivity. Qed.

Example run_truncated :
  Fixture.getTimePattern (Some "fr") UATIMEUNITTIMEPAT_HMS 3
    (Fixture.fresh U_ZERO_ERROR (Some 4%nat))
  = Some (7, mkWorld U_BUFFER_OVERFLOW_ERROR
               (Some (Fixture.utf16 "h:m" ++ [65535]))
               [Open (Some "icudt74l-unit") (Some "fr");
                GetByKeyWithFallback "durationUnits";
                GetStringByKeyWithFallback "hms"; Close]).
Proof. reflexivity. Qed.

Example run_two_levels :
  Fixture.getListPattern (Some "en_US") UATIMEUNITSTYLE_NARROW
    UATIMEUNITLISTPAT_TWO_ONLY 8 (Fixture.fresh U_ZERO_ERROR (Some 8%nat))
  = Some (7, mkWorld U_ZERO_ERROR
               (Some (Fixture.utf16 "{0} {1}" ++ [0]))
               [Open None (Some "en_US");
                GetByKeyWithFallback "listPattern";
                GetByKeyWithFallback "unit-narrow";
                GetStringByKeyWithFallback "2"; Close]).
Proof. reflexivity. Qed.

Example run_missing_key :
  Fixture.getListPattern (Some "en_US") UATIMEUNITSTYLE_ABBREVIATED
    UATIMEUNITLISTPAT_START_PIECE 8 (Fixture.fresh U_ZERO_ERROR (Some 8%nat))
  = Some (0, mkWorld U_MISSING_RESOURCE_ERROR
               (Some (repeat 65535 8))
               [Open None (Some "en_US");
                GetByKeyWithFallback "listPattern";
                GetByKeyWithFallback "unit-short";
                GetStringByKeyWithFallback "start"; Close]).
Proof. reflexivity. Qed.

Example run_bad_kind :
  Fixture.getTimePattern (Some "en") 3 8 (Fixture.fresh U_ZERO_ERROR (Some 8%nat))
  = Some (0, mkWorld U_ILLEGAL_ARGUMENT_ERROR (Some (repeat 65535 8)) []).
Proof. reflexivity. Qed.

(** ** The copy loop and the terminator store *)

Lemma strncpy_loop_text (n : nat) :
  forall (pat dst : list UChar),
    text pat -> (n <= List.length dst)%nat ->
    strncpy_loop n dst (pat ++ [0])
    = Some (firstn n (pat ++ [0]) ++ skipn (Nat.min n (S (List.length pat))) dst).
Proof.
  induction n as [|n IH]; intros pat dst Htext Hlen.
  - reflexivity.
  - destruct dst as [|d dst']; [simpl in Hlen; lia|].
    destruct pat as [|c pat'].
    + simpl. destruct n; reflexivity.
    + inversion Htext as [|? ? Hc Hrest]; subst.
      cbn [app strncpy_loop].
      apply Z.eqb_neq in Hc. rewrite Hc.
      rewrite (IH pat' dst' Hrest) by (simpl in Hlen; lia).
      reflexivity.
Qed.

Lemma strncpy_loop_safe (n : nat) :
  forall (pat dst : list UChar),
    (n <= List.length dst)%nat ->
    exists dst',
      strncpy_loop n dst (pat ++ [0]) = Some dst' /\
      List.length dst' = List.length dst.
Proof.
  induction n as [|n IH]; intros pat dst Hlen.
  - exists dst. split; reflexivity.
  - destruct dst as [|d dst']; [simpl in Hlen; lia|].
    destruct pat as [|c pat']; cbn [app strncpy_loop].
    + exists (0 :: dst'). split; reflexivity.
    + destruct (c =? 0).
      * exists (c :: dst'). split; reflexivity.
      * destruct (IH pat' dst') as (dst2 & E & L); [simpl in Hlen; lia|].
        rewrite E. exists (c :: dst2). split; [reflexivity|simpl; lia].
Qed.

Lemma store_at_spec (v : UChar) :
  forall (arr : list UChar) (i : nat),
    (i < List.length arr)%nat ->
    store_at arr i v = Some (firstn i arr ++ v :: skipn (S i) arr).
Proof.
  induction arr as [|c rest IH]; intros i Hi; [simpl in Hi; lia|].
  destruct i as [|i'].
  - reflexivity.
  - cbn [store_at]. rewrite IH by (simpl in Hi; lia). reflexivity.
Qed.

Lemma firstn_text_nul (pat rest : list UChar) :
  firstn (List.length pat) (pat ++ rest) = pat.
Proof.
  rewrite firstn_app, Nat.sub_diag, firstn_all. simpl. apply app_nil_r.
Qed.

(** ** The String Extractor step *)

Lemma U_SUCCESS_not_FAILURE (e : UErrorCode) :
  U_SUCCESS e = negb (U_FAILURE e).
Proof.
  unfold U_SUCCESS, U_FAILURE, U_ZERO_ERROR.
  destruct (Z.leb_spec e 0), (Z.gtb_spec e 0); simpl; try reflexivity; lia.
Qed.

Lemma succeeded_U_SUCCESS (e : UErrorCode) :
  succeeded e <-> U_SUCCESS e = true.
Proof.
  unfold succeeded. rewrite U_SUCCESS_not_FAILURE.
  destruct (U_FAILURE e); simpl; split; congruence.
Qed.

(** After a failed lookup nothing is copied and nothing is terminated. *)
Lemma extract_failed (answer : option (list UChar) * int32) (cap : int32) (w : world) :
  U_SUCCESS (status w) = false ->
  extract_string answer cap w
  = Some (snd answer, mkWorld (status w) (result w) (accesses w ++ [Close])).
Proof.
  intros Hst. unfold extract_string, bind, get_status, u_terminateUChars.
  cbn. rewrite Hst. cbn. rewrite Hst. reflexivity.
Qed.

(** The pattern and its terminator fit. *)
Lemma extract_fits (pat arr : list UChar) (cap : int32) (w : world) :
  U_SUCCESS (status w) = true ->
  result w = Some arr ->
  text pat ->
  Z.of_nat (List.length pat) < cap <= Z.of_nat (List.length arr) ->
  extract_string (Some (pat ++ [0]), Z.of_nat (List.length pat)) cap w
  = Some (Z.of_nat (List.length pat),
          mkWorld (if status w =? U_STRING_NOT_TERMINATED_WARNING
                   then U_ZERO_ERROR else status w)
                  (Some (pat ++ 0 :: skipn (S (List.length pat)) arr))
                  (accesses w ++ [Close])).
Proof.
  intros Hst Harr Htext Hcap.
  assert (Hcopy : strncpy_loop (Z.to_nat cap) arr (pat ++ [0])
                  = Some (pat ++ 0 :: skipn (S (List.length pat)) arr)).
  { rewrite (strncpy_loop_text (Z.to_nat cap) pat arr Htext) by lia.
    replace (Nat.min (Z.to_nat cap) (S (List.length pat)))
      with (S (List.length pat)) by lia.
    rewrite firstn_all2 by (rewrite length_app; simpl; lia).
    rewrite <- app_assoc. reflexivity. }
  assert (Hstore : store_at (pat ++ 0 :: skipn (S (List.length pat)) arr)
                     (Z.to_nat (Z.of_nat (List.length pat))) 0
                   = Some (pat ++ 0 :: skipn (S (List.length pat)) arr)).
  { rewrite Nat2Z.id, store_at_spec by (rewrite length_app; simpl; lia).
    rewrite firstn_text_nul.
    rewrite skipn_app, (skipn_all2 pat) by lia.
    replace (S (List.length pat) - List.length pat)%nat with 1%nat by lia.
    reflexivity. }
  unfold extract_string, bind, get_status, u_terminateUChars, u_strncpy,
    store_result, record, set_status, ret.
  cbn -[skipn]. rewrite Hst, Harr.
  destruct (Z.leb_spec cap 0) as [Hle|_]; [lia|].
  rewrite Hcopy. cbn -[skipn]. rewrite Hst.
  destruct (Z.ltb_spec (Z.of_nat (List.length pat)) 0) as [Hneg|_]; [lia|].
  destruct (Z.ltb_spec (Z.of_nat (List.length pat)) cap) as [_|Hge]; [|lia].
  unfold bind. cbn -[skipn].
  destruct (Z.ltb_spec (Z.of_nat (List.length pat)) 0) as [Hneg|_]; [lia|].
  rewrite Hstore.
  destruct (status w =? U_STRING_NOT_TERMINATED_WARNING); reflexivity.
Qed.

(** The pattern fits exactly: there is no room for the terminator. *)
Lemma extract_exact (pat : list UChar) (cap : int32) (w : world) :
  U_SUCCESS (status w) = true ->
  text pat ->
  cap = Z.of_nat (List.length pat) ->
  valid_pair (result w) cap ->
  extract_string (Some (pat ++ [0]), Z.of_nat (List.length pat)) cap w
  = Some (Z.of_nat (List.length pat),
          mkWorld U_STRING_NOT_TERMINATED_WARNING
                  (option_map (fun arr => pat ++ skipn (List.length pat) arr)
                              (result w))
                  (accesses w ++ [Close])).
Proof.
  intros Hst Htext Hcap Hvalid. subst cap.
  assert (Hcopy : forall arr,
             (List.length pat <= List.length arr)%nat ->
             strncpy_loop (List.length pat) arr (pat ++ [0])
             = Some (pat ++ skipn (List.length pat) arr)).
  { intros arr Hlen.
    rewrite (strncpy_loop_text (List.length pat) pat arr Htext Hlen).
    rewrite firstn_text_nul.
    replace (Nat.min (List.length pat) (S (List.length pat)))
      with (List.length pat) by lia.
    reflexivity. }
  unfold extract_string, bind, get_status, u_terminateUChars, u_strncpy,
    store_result, record, set_status, ret.
  cbn -[skipn]. rewrite Hst.
  destruct (Z.leb_spec (Z.of_nat (List.length pat)) 0) as [Hle|Hgt].
  - assert (pat = []) by (destruct pat; [reflexivity|simpl in Hle; lia]).
    subst pat. cbn. rewrite Hst. cbn.
    destruct (result w); reflexivity.
  - destruct (result w) as [arr|] eqn:Harr; [|simpl in Hvalid; lia].
    simpl in Hvalid. rewrite Nat2Z.id, Hcopy by lia.
    cbn -[skipn]. rewrite Hst.
    destruct (Z.ltb_spec (Z.of_nat (List.length pat)) 0) as [Hneg|_]; [lia|].
    rewrite Z.ltb_irrefl, Z.eqb_refl. reflexivity.
Qed.

(** The terminator step on its own, for a length that is not negative. *)
Lemma terminate_returns (cap len : int32) (w : world) :
  0 <= len ->
  (len < cap ->
   exists arr, result w = Some arr /\ (Z.to_nat len < List.length arr)%nat) ->
  exists w',
    u_terminateUChars cap len w = Some (len, w') /\
    accesses w' = accesses w.
Proof.
  intros Hlen Hroom.
  unfold u_terminateUChars, bind, get_status, store_result, set_status, ret.
  cbn. destruct (U_SUCCESS (status w)); [|eexists; split; reflexivity].
  destruct (Z.ltb_spec len 0) as [Hneg|_]; [lia|].
  destruct (Z.ltb_spec len cap) as [Hlt|Hge].
  - destruct (Hroom Hlt) as (arr & Harr & Hi).
    unfold bind. rewrite Harr.
    destruct (Z.ltb_spec len 0) as [Hneg|_]; [lia|].
    rewrite (store_at_spec 0 arr (Z.to_nat len) Hi).
    destruct (status w =? U_STRING_NOT_TERMINATED_WARNING);
      eexists; split; reflexivity.
  - destruct (len =? cap); eexists; split; reflexivity.
Qed.

(** Whatever the capacity, the step returns the length the lookup reported. *)
Lemma extract_returns (pat : list UChar) (cap : int32) (w : world) :
  U_SUCCESS (status w) = true ->
  valid_pair (result w) cap ->
  exists w',
    extract_string (Some (pat ++ [0]), Z.of_nat (List.length pat)) cap w
    = Some (Z.of_nat (List.length pat), w') /\
    accesses w' = accesses w ++ [Close].
Proof.
  intros Hst Hvalid.
  unfold extract_string, bind, get_status, u_strncpy, record.
  cbn -[u_terminateUChars]. rewrite Hst.
  destruct (Z.leb_spec cap 0) as [Hle|Hgt].
  - cbn -[u_terminateUChars].
    apply terminate_returns; [lia|].
    cbn. intros Hlt. destruct (result w); simpl in Hvalid; lia.
  - destruct (result w) as [arr|] eqn:Harr; [|simpl in Hvalid; lia].
    simpl in Hvalid.
    destruct (strncpy_loop_safe (Z.to_nat cap) pat arr) as (arr' & E & L); [lia|].
    rewrite E. cbn -[u_terminateUChars].
    apply terminate_returns; [lia|].
    cbn. intros Hlt. exists arr'. split; [reflexivity|lia].
Qed.

(** ** The two functions, phase by phase *)

Section Phases.

Context {B : Type} (icu : ResourceStore B) (NAME : string).

Lemma guard_accepted (buf : option (list UChar)) (cap : int32) :
  accepted_pair buf cap ->
  (if match buf with None => true | Some _ => false end
   then negb (cap =? 0) else cap <? 0) = false.
Proof.
  destruct buf; simpl; intros H.
  - apply Z.ltb_ge. exact H.
  - subst cap. reflexivity.
Qed.

Lemma guard_refused (buf : option (list UChar)) (cap : int32) :
  ~ accepted_pair buf cap ->
  (if match buf with None => true | Some _ => false end
   then negb (cap =? 0) else cap <? 0) = true.
Proof.
  destruct buf; simpl; intros H.
  - apply Z.ltb_lt. lia.
  - destruct (Z.eqb_spec cap 0); [contradiction|reflexivity].
Qed.

Lemma valid_pair_accepted (buf : option (list UChar)) (cap : int32) :
  valid_pair buf cap -> accepted_pair buf cap.
Proof. destruct buf; simpl; lia. Qed.

(** Entry with a failed status: lines 27 and 50. *)
Lemma getTimePattern_failed_entry locale type cap (w : world) :
  U_FAILURE (status w) = true ->
  uatmufmt_getTimePattern icu NAME locale type cap w = Some (0, w).
Proof.
  intros H. unfold uatmufmt_getTimePattern, bind, get_status.
  rewrite H. reflexivity.
Qed.

Lemma getListPattern_failed_entry locale style type cap (w : world) :
  U_FAILURE (status w) = true ->
  uatmufmt_getListPattern icu locale style type cap w = Some (0, w).
Proof.
  intros H. unfold uatmufmt_getListPattern, bind, get_status.
  rewrite H. reflexivity.
Qed.

(** The argument check: lines 28-31 and 51-54. *)
Lemma getTimePattern_refused locale type cap (w : world) :
  succeeded (status w) ->
  ~ accepted_pair (result w) cap ->
  uatmufmt_getTimePattern icu NAME locale type cap w
  = Some (0, mkWorld U_ILLEGAL_ARGUMENT_ERROR (result w) (accesses w)).
Proof.
  intros Hst Hbad.
  unfold uatmufmt_getTimePattern, bind, get_status, result_is_null.
  rewrite Hst, (guard_refused _ _ Hbad). reflexivity.
Qed.

Lemma getListPattern_refused locale style type cap (w : world) :
  succeeded (status w) ->
  ~ accepted_pair (result w) cap ->
  uatmufmt_getListPattern icu locale style type cap w
  = Some (0, mkWorld U_ILLEGAL_ARGUMENT_ERROR (result w) (accesses w)).
Proof.
  intros Hst Hbad.
  unfold uatmufmt_getListPattern, bind, get_status, result_is_null.
  rewrite Hst, (guard_refused _ _ Hbad). reflexivity.
Qed.

(** The [default:] branches: lines 37, 61 and 69. *)
Lemma getTimePattern_bad_kind locale type cap (w : world) :
  succeeded (status w) ->
  accepted_pair (result w) cap ->
  timePatternKey type = None ->
  uatmufmt_getTimePattern icu NAME locale type cap w
  = Some (0, mkWorld U_ILLEGAL_ARGUMENT_ERROR (result w) (accesses w)).
Proof.
  intros Hst Hok Hkey.
  unfold uatmufmt_getTimePattern, bind, get_status, result_is_null.
  rewrite Hst, (guard_accepted _ _ Hok), Hkey. reflexivity.
Qed.

Lemma getListPattern_bad_selector locale style type cap (w : world) :
  succeeded (status w) ->
  accepted_pair (result w) cap ->
  listStyleKey style = None \/ listTypeKey type = None ->
  uatmufmt_getListPattern icu locale style type cap w
  = Some (0, mkWorld U_ILLEGAL_ARGUMENT_ERROR (result w) (accesses w)).
Proof.
  intros Hst Hok Hkey.
  unfold uatmufmt_getListPattern, bind, get_status, result_is_null.
  rewrite Hst, (guard_accepted _ _ Hok).
  destruct (listStyleKey style) as [styleKey|]; [|reflexivity].
  destruct Hkey as [Hkey|Hkey]; [discriminate|].
  rewrite Hkey. reflexivity.
Qed.

(** The lookup: lines 39-46 and 71-79. *)
Lemma getTimePattern_lookup locale type key cap (w : world) :
  succeeded (status w) ->
  accepted_pair (result w) cap ->
  timePatternKey type = Some key ->
  uatmufmt_getTimePattern icu NAME locale type cap w
  = let package := Some (U_ICUDATA_UNIT NAME) in
    let r := resolution_path icu package locale ["durationUnits"] key (status w) in
    extract_string (fst r) cap
      (mkWorld (snd r) (result w)
         (accesses w ++ path_accesses package locale ["durationUnits"] key)).
Proof.
  intros Hst Hok Hkey.
  unfold uatmufmt_getTimePattern, bind at 1 2, get_status at 1, result_is_null.
  rewrite Hst, (guard_accepted _ _ Hok), Hkey.
  unfold resolution_path, path_accesses, descend, extract_string.
  unfold bind, ures_open, ures_getByKeyWithFallback,
    ures_getStringByKeyWithFallback, ures_close, get_status.
  cbn -[u_strncpy u_terminateUChars U_SUCCESS record].
  repeat rewrite <- app_assoc. cbn [app].
  destruct (rs_getStringByKeyWithFallback icu _ _ _ _) as [[p l] st'].
  reflexivity.
Qed.

Lemma getListPattern_lookup locale style type styleKey typeKey cap (w : world) :
  succeeded (status w) ->
  accepted_pair (result w) cap ->
  listStyleKey style = Some styleKey ->
  listTypeKey type = Some typeKey ->
  uatmufmt_getListPattern icu locale style type cap w
  = let r := resolution_path icu None locale ["listPattern"; styleKey] typeKey
               (status w) in
    extract_string (fst r) cap
      (mkWorld (snd r) (result w)
         (accesses w ++ path_accesses None locale ["listPattern"; styleKey] typeKey)).
Proof.
  intros Hst Hok Hstyle Htype.
  unfold uatmufmt_getListPattern, bind at 1 2, get_status at 1, result_is_null.
  rewrite Hst, (guard_accepted _ _ Hok), Hstyle, Htype.
  unfold resolution_path, path_accesses, descend, extract_string.
  unfold bind, ures_open, ures_getByKeyWithFallback,
    ures_getStringByKeyWithFallback, ures_close, get_status.
  cbn -[u_strncpy u_terminateUChars U_SUCCESS record].
  repeat rewrite <- app_assoc. cbn [app].
  destruct (rs_getStringByKeyWithFallback icu _ _ _ _) as [[p l] st'].
  reflexivity.
Qed.

End Phases.

(** ** Either function, through [call] *)

Lemma key_of_none (selector : Z) (table : list (Z * string)) :
  key_of selector table = None <-> ~ In selector (map fst table).
Proof.
  induction table as [|[v key] rest IH]; simpl.
  - tauto.
  - destruct (Z.eqb_spec selector v) as [->|Hne].
    + split; [discriminate|]. intros H. exfalso. apply H. left. reflexivity.
    + rewrite IH. split.
      * intros H [E|Hin]; [congruence|contradiction].
      * intros H Hin. apply H. right. exact Hin.
Qed.

Lemma stated_path_none (NAME : string) (f : entry) :
  stated_path NAME f = None <-> undefined_selector f.
Proof.
  destruct f as [type|style type]; unfold stated_path, undefined_selector.
  - rewrite <- key_of_none. destruct (key_of type kind_keys); split; congruence.
  - rewrite <- !key_of_none.
    destruct (key_of style style_keys), (key_of type position_keys);
      split; try congruence; try tauto; intros [H|H]; congruence.
Qed.

Lemma accepted_pair_dec (buf : option (list UChar)) (cap : int32) :
  {accepted_pair buf cap} + {~ accepted_pair buf cap}.
Proof.
  destruct buf; simpl.
  - destruct (Z_le_dec 0 cap); [left|right]; assumption.
  - apply Z.eq_dec.
Qed.

Section Calls.

Context {B : Type} (icu : ResourceStore B) (NAME : string).
Variables (locale : option string) (f : entry) (cap : int32) (w : world).

Lemma call_failed_entry :
  U_FAILURE (status w) = true ->
  call icu NAME locale f cap w = Some (0, w).
Proof.
  destruct f; simpl;
    [apply getTimePattern_failed_entry | apply getListPattern_failed_entry].
Qed.

Lemma call_refused :
  succeeded (status w) ->
  ~ accepted_pair (result w) cap ->
  call icu NAME locale f cap w
  = Some (0, mkWorld U_ILLEGAL_ARGUMENT_ERROR (result w) (accesses w)).
Proof.
  destruct f; simpl;
    [apply getTimePattern_refused | apply getListPattern_refused].
Qed.

Lemma call_undefined :
  succeeded (status w) ->
  accepted_pair (result w) cap ->
  stated_path NAME f = None ->
  call icu NAME locale f cap w
  = Some (0, mkWorld U_ILLEGAL_ARGUMENT_ERROR (result w) (accesses w)).
Proof.
  intros Hst Hok Hpath.
  destruct f as [type|style type]; unfold call, stated_path in *.
  - apply getTimePattern_bad_kind; [assumption..|].
    change (timePatternKey type) with (key_of type kind_keys).
    destruct (key_of type kind_keys); [discriminate|reflexivity].
  - apply getListPattern_bad_selector; [assumption..|].
    change (listStyleKey style) with (key_of style style_keys).
    change (listTypeKey type) with (key_of type position_keys).
    destruct (key_of style style_keys); [|left; reflexivity].
    destruct (key_of type position_keys); [discriminate|right; reflexivity].
Qed.

Lemma call_lookup (path : option string * list string * string) :
  succeeded (status w) ->
  accepted_pair (result w) cap ->
  stated_path NAME f = Some path ->
  call icu NAME locale f cap w
  = extract_string (fst (answer icu locale path (status w))) cap
      (looked_up icu locale path w).
Proof.
  intros Hst Hok Hpath.
  destruct f as [type|style type]; unfold call, stated_path in *.
  - destruct (key_of type kind_keys) as [key|] eqn:Hkey; [|discriminate].
    injection Hpath as <-.
    apply (getTimePattern_lookup icu NAME locale type key cap w Hst Hok Hkey).
  - destruct (key_of style style_keys) as [styleKey|] eqn:Hstyle; [|discriminate].
    destruct (key_of type position_keys) as [typeKey|] eqn:Htype; [|discriminate].
    injection Hpath as <-.
    apply (getListPattern_lookup icu locale style type styleKey typeKey cap w
             Hst Hok Hstyle Htype).
Qed.

End Calls.

(** ** Facts shared by the properties *)

Lemma looked_up_status {B} (icu : ResourceStore B) locale path (w : world) :
  status (looked_up icu locale path w) = snd (answer icu locale path (status w)).
Proof. destruct path as [[package chain] leaf]. reflexivity. Qed.

Lemma looked_up_result {B} (icu : ResourceStore B) locale path (w : world) :
  result (looked_up icu locale path w) = result w.
Proof. destruct path as [[package chain] leaf]. reflexivity. Qed.

Lemma resolves_to_answer
    (a : option (list UChar) * int32 * UErrorCode) (pat : list UChar) :
  resolves_to a pat ->
  fst a = (Some (pat ++ [0]), Z.of_nat (List.length pat)) /\ U_SUCCESS (snd a) = true.
Proof.
  destruct a as [[p l] st]. unfold resolves_to. simpl.
  intros (Hst & -> & ->). split; [reflexivity|exact Hst].
Qed.

Lemma terminated_status_succeeds (st : UErrorCode) :
  U_SUCCESS st = true ->
  succeeded (if st =? U_STRING_NOT_TERMINATED_WARNING then U_ZERO_ERROR else st).
Proof.
  intros H. destruct (st =? U_STRING_NOT_TERMINATED_WARNING).
  - reflexivity.
  - apply succeeded_U_SUCCESS. exact H.
Qed.

Lemma text_cons (c : UChar) (pat : list UChar) :
  c <> 0 -> text pat -> text (c :: pat).
Proof. intros Hc Hpat. constructor; assumption. Qed.

Ltac text_literal :=
  cbv; repeat (apply text_cons; [discriminate|]); constructor.

(** ** The properties *)

(** C1, amended: for a call of either function that goes through (a
    successful status on entry, defined selectors, an array that holds the
    declared capacity) and whose resolved pattern fits in the capacity with
    room for its terminator, that is, whose length is below the capacity, the
    returned value is the pattern's length and the array holds the pattern
    followed by NUL within the capacity; what lies behind the NUL is as it
    was, and the status still signals success. *)
Theorem sufficient_capacity_writes_pattern
    {B : Type} (icu : ResourceStore B) (NAME : string) (locale : option string)
    (f : entry) (path : option string * list string * string)
    (pat arr : list UChar) (cap : int32) (w : world) :
  succeeded (status w) ->
  result w = Some arr ->
  cap <= Z.of_nat (List.length arr) ->
  stated_path NAME f = Some path ->
  resolves_to (answer icu locale path (status w)) pat ->
  text pat ->
  Z.of_nat (List.length pat) < cap ->
  exists w',
    call icu NAME locale f cap w = Some (Z.of_nat (List.length pat), w') /\
    terminated_within pat cap w' /\
    result w' = Some (pat ++ 0 :: skipn (S (List.length pat)) arr) /\
    succeeded (status w').
Proof.
  intros Hst Harr Hcap Hpath Hres Htext Hfit.
  apply resolves_to_answer in Hres. destruct Hres as [Hans Hok].
  rewrite (call_lookup icu NAME locale f cap w path Hst) by
    (try assumption; rewrite Harr; simpl; lia).
  rewrite Hans.
  rewrite (extract_fits pat arr cap).
  - eexists. split; [reflexivity|]. split; [|split; [reflexivity|]].
    + eexists _, _. split; [reflexivity|].
      rewrite firstn_app, firstn_all2 by lia.
      replace (Z.to_nat cap - List.length pat)%nat
        with (S (Z.to_nat cap - List.length pat - 1)) by lia.
      reflexivity.
    + cbn [status]. rewrite looked_up_status.
      apply terminated_status_succeeds. exact Hok.
  - rewrite looked_up_status. exact Hok.
  - rewrite looked_up_result. exact Harr.
  - exact Htext.
  - lia.
Qed.

Lemma sufficient_capacity_writes_pattern_witness :
  exists w',
    call Fixture.store Fixture.ICUDATA_NAME (Some "de")
      (TimePattern UATIMEUNITTIMEPAT_HM) 8
      (Fixture.fresh U_ZERO_ERROR (Some 8%nat))
    = Some (Z.of_nat (List.length (Fixture.utf16 "h:mm")), w') /\
    terminated_within (Fixture.utf16 "h:mm") 8 w' /\
    result w'
    = Some (Fixture.utf16 "h:mm"
            ++ 0 :: skipn (S (List.length (Fixture.utf16 "h:mm"))) (repeat 65535 8)) /\
    succeeded (status w').
Proof.
  apply (sufficient_capacity_writes_pattern Fixture.store Fixture.ICUDATA_NAME
           (Some "de") (TimePattern UATIMEUNITTIMEPAT_HM)
           (Some "icudt74l-unit", ["durationUnits"], "hm")).
  - reflexivity.
  - reflexivity.
  - simpl. lia.
  - reflexivity.
  - repeat split; reflexivity.
  - text_literal.
  - simpl. lia.
Defined.

(** C1 as stated fails where the pattern fits exactly: on the fixture the
    minutes-seconds pattern of locale "de" is "m:ss", four units; it fits in a
    capacity of 4, the call returns 4, and the four units of the array hold the
    pattern with no NUL after it. *)
Lemma exact_fit_has_no_terminator :
  let pat := Fixture.utf16 "m:ss" in
  let w := Fixture.fresh U_ZERO_ERROR (Some 4%nat) in
  succeeded (status w) /\
  valid_pair (result w) 4 /\
  stated_path Fixture.ICUDATA_NAME (TimePattern UATIMEUNITTIMEPAT_MS)
  = Some (Some "icudt74l-unit", ["durationUnits"], "ms") /\
  resolves_to
    (answer Fixture.store (Some "de")
       (Some "icudt74l-unit", ["durationUnits"], "ms") (status w)) pat /\
  text pat /\
  Z.of_nat (List.length pat) <= 4 /\
  exists w',
    call Fixture.store Fixture.ICUDATA_NAME (Some "de")
      (TimePattern UATIMEUNITTIMEPAT_MS) 4 w
    = Some (Z.of_nat (List.length pat), w') /\
    result w' = Some pat /\
    status w' = U_STRING_NOT_TERMINATED_WARNING /\
    ~ terminated_within pat 4 w'.
Proof.
  cbv zeta.
  split; [reflexivity|]. split; [simpl; lia|]. split; [reflexivity|].
  split; [repeat split; reflexivity|]. split; [text_literal|].
  split; [simpl; lia|].
  exists (mkWorld U_STRING_NOT_TERMINATED_WARNING (Some (Fixture.utf16 "m:ss"))
            [Open (Some "icudt74l-unit") (Some "de");
             GetByKeyWithFallback "durationUnits";
             GetStringByKeyWithFallback "ms"; Close]).
  split; [reflexivity|]. split; [reflexivity|]. split; [reflexivity|].
  intros (arr & rest & Harr & Hwin).
  cbn in Harr. injection Harr as <-.
  apply (f_equal (@List.length UChar)) in Hwin.
  rewrite length_app in Hwin. vm_compute in Hwin. discriminate Hwin.
Qed.

Lemma key_of_kind (type : Z) (key : string) :
  In (type, key) kind_keys -> key_of type kind_keys = Some key.
Proof.
  intros H. repeat (destruct H as [H|H]; [injection H as <- <-; reflexivity|]).
  destruct H.
Qed.

Lemma key_of_style (style : Z) (key : string) :
  In (style, key) style_keys -> key_of style style_keys = Some key.
Proof.
  intros H. repeat (destruct H as [H|H]; [injection H as <- <-; reflexivity|]).
  destruct H.
Qed.

Lemma key_of_position (type : Z) (key : string) :
  In (type, key) position_keys -> key_of type position_keys = Some key.
Proof.
  intros H. repeat (destruct H as [H|H]; [injection H as <- <-; reflexivity|]).
  destruct H.
Qed.

(** C2: past the entry checks each function is the String Extractor step run
    on what the store answers along the stated path, and the store is called
    along that path and nowhere else.  uatmufmt_getTimePattern opens the
    unit-data package for the locale, descends "durationUnits" with fallback
    and reads the kind's key ("hm", "hms", "ms") with fallback;
    uatmufmt_getListPattern opens the default package for the locale, descends
    "listPattern" and the style key with fallback and reads the position key
    ("2", "end", "middle", "start") with fallback. *)
Theorem lookup_follows_stated_path
    {B : Type} (icu : ResourceStore B) (NAME : string) (locale : option string)
    (cap : int32) (w : world) :
  succeeded (status w) ->
  accepted_pair (result w) cap ->
  (forall type key,
      In (type, key) kind_keys ->
      let package := Some (NAME ++ "-unit")%string in
      let r := resolution_path icu package locale ["durationUnits"] key (status w) in
      uatmufmt_getTimePattern icu NAME locale type cap w
      = extract_string (fst r) cap
          (mkWorld (snd r) (result w)
             (accesses w ++ [Open package locale;
                             GetByKeyWithFallback "durationUnits";
                             GetStringByKeyWithFallback key]))) /\
  (forall style type styleKey typeKey,
      In (style, styleKey) style_keys ->
      In (type, typeKey) position_keys ->
      let r := resolution_path icu None locale ["listPattern"; styleKey] typeKey
                 (status w) in
      uatmufmt_getListPattern icu locale style type cap w
      = extract_string (fst r) cap
          (mkWorld (snd r) (result w)
             (accesses w ++ [Open None locale;
                             GetByKeyWithFallback "listPattern";
                             GetByKeyWithFallback styleKey;
                             GetStringByKeyWithFallback typeKey]))).
Proof.
  intros Hst Hok. split.
  - intros type key Hin.
    apply (getTimePattern_lookup icu NAME locale type key cap w Hst Hok).
    apply key_of_kind. exact Hin.
  - intros style type styleKey typeKey Hstyle Htype.
    apply (getListPattern_lookup icu locale style type styleKey typeKey cap w Hst Hok).
    + apply key_of_style. exact Hstyle.
    + apply key_of_position. exact Htype.
Qed.

Lemma lookup_follows_stated_path_witness :
  Fixture.getTimePattern (Some "en_US") UATIMEUNITTIMEPAT_HMS 8
    (Fixture.fresh U_ZERO_ERROR (Some 8%nat))
  = extract_string (Some (Fixture.utf16 "h:mm:ss" ++ [0]), 7) 8
      (mkWorld U_ZERO_ERROR (Some (repeat 65535 8))
         [Open (Some "icudt74l-unit") (Some "en_US");
          GetByKeyWithFallback "durationUnits";
          GetStringByKeyWithFallback "hms"]) /\
  Fixture.getListPattern (Some "en_US") UATIMEUNITSTYLE_FULL
    UATIMEUNITLISTPAT_END_PIECE 0 (Fixture.fresh U_ZERO_ERROR None)
  = extract_string (Some (Fixture.utf16 "{0}, and {1}" ++ [0]), 12) 0
      (mkWorld U_ZERO_ERROR None
         [Open None (Some "en_US");
          GetByKeyWithFallback "listPattern";
          GetByKeyWithFallback "unit";
          GetStringByKeyWithFallback "end"]).
Proof.
  split.
  - refine (proj1 (lookup_follows_stated_path Fixture.store Fixture.ICUDATA_NAME
                     (Some "en_US") 8 (Fixture.fresh U_ZERO_ERROR (Some 8%nat))
                     _ _) UATIMEUNITTIMEPAT_HMS "hms" _).
    + reflexivity.
    + simpl. lia.
    + right. left. reflexivity.
  - refine (proj2 (lookup_follows_stated_path Fixture.store Fixture.ICUDATA_NAME
                     (Some "en_US") 0 (Fixture.fresh U_ZERO_ERROR None)
                     _ _) UATIMEUNITSTYLE_FULL UATIMEUNITLISTPAT_END_PIECE
                     "unit" "end" _ _).
    + reflexivity.
    + reflexivity.
    + left. reflexivity.
    + right. left. reflexivity.
Defined.

(** C3: when the status on entry already holds a failure, either function
    returns 0 and leaves everything as it was: the status, the array, and the
    record of store accesses, to which nothing is added.  This is so for every
    store, so the store has no part in the outcome. *)
Theorem failed_entry_is_passed_through
    {B : Type} (icu : ResourceStore B) (NAME : string) (locale : option string)
    (f : entry) (cap : int32) (w : world) :
  U_FAILURE (status w) = true ->
  call icu NAME locale f cap w = Some (0, w).
Proof. apply call_failed_entry. Qed.

Lemma failed_entry_is_passed_through_witness :
  call Fixture.store Fixture.ICUDATA_NAME (Some "en_US")
    (ListPattern UATIMEUNITSTYLE_FULL UATIMEUNITLISTPAT_TWO_ONLY) 8
    (Fixture.fresh U_MISSING_RESOURCE_ERROR (Some 8%nat))
  = Some (0, Fixture.fresh U_MISSING_RESOURCE_ERROR (Some 8%nat)).
Proof.
  apply (failed_entry_is_passed_through Fixture.store Fixture.ICUDATA_NAME).
  reflexivity.
Defined.

(** C4: with a successful status on entry, a buffer/capacity pair other than
    a null buffer with capacity 0 or a non-null buffer with a capacity of at
    least 0 makes either function set the status to the illegal-argument error
    and return 0, nothing else changed; an accepted pair lets the call go on
    to the selectors and, when they are defined, to the lookup. *)
Theorem buffer_capacity_check
    {B : Type} (icu : ResourceStore B) (NAME : string) (locale : option string)
    (f : entry) (cap : int32) (w : world) :
  succeeded (status w) ->
  (~ accepted_pair (result w) cap ->
   call icu NAME locale f cap w
   = Some (0, mkWorld U_ILLEGAL_ARGUMENT_ERROR (result w) (accesses w))) /\
  (accepted_pair (result w) cap ->
   call icu NAME locale f cap w
   = match stated_path NAME f with
     | Some path =>
         extract_string (fst (answer icu locale path (status w))) cap
           (looked_up icu locale path w)
     | None => Some (0, mkWorld U_ILLEGAL_ARGUMENT_ERROR (result w) (accesses w))
     end).
Proof.
  intros Hst. split; intros Hpair.
  - apply call_refused; assumption.
  - destruct (stated_path NAME f) as [path|] eqn:Hpath.
    + apply call_lookup; assumption.
    + apply call_undefined; assumption.
Qed.

Lemma buffer_capacity_check_witness :
  call Fixture.store Fixture.ICUDATA_NAME (Some "en_US")
    (TimePattern UATIMEUNITTIMEPAT_MS) 5 (Fixture.fresh U_ZERO_ERROR None)
  = Some (0, mkWorld U_ILLEGAL_ARGUMENT_ERROR None []) /\
  call Fixture.store Fixture.ICUDATA_NAME (Some "en_US")
    (TimePattern UATIMEUNITTIMEPAT_MS) (-1) (Fixture.fresh U_ZERO_ERROR (Some 4%nat))
  = Some (0, mkWorld U_ILLEGAL_ARGUMENT_ERROR (Some (repeat 65535 4)) []).
Proof.
  split.
  - apply (proj1 (buffer_capacity_check Fixture.store Fixture.ICUDATA_NAME
                    (Some "en_US") (TimePattern UATIMEUNITTIMEPAT_MS) 5
                    (Fixture.fresh U_ZERO_ERROR None) eq_refl)).
    simpl. discriminate.
  - apply (proj1 (buffer_capacity_check Fixture.store Fixture.ICUDATA_NAME
                    (Some "en_US") (TimePattern UATIMEUNITTIMEPAT_MS) (-1)
                    (Fixture.fresh U_ZERO_ERROR (Some 4%nat)) eq_refl)).
    simpl. lia.
Defined.

(** C5: on a call that is entered with a successful status and an accepted
    buffer/capacity pair, a selector outside the defined variants (the pattern
    kind of uatmufmt_getTimePattern; the style or the list position of
    uatmufmt_getListPattern) makes the function set the status to the
    illegal-argument error and return 0, whatever the locale and the store. *)
Theorem undefined_selector_is_refused
    {B : Type} (icu : ResourceStore B) (NAME : string) (locale : option string)
    (f : entry) (cap : int32) (w : world) :
  succeeded (status w) ->
  accepted_pair (result w) cap ->
  undefined_selector f ->
  call icu NAME locale f cap w
  = Some (0, mkWorld U_ILLEGAL_ARGUMENT_ERROR (result w) (accesses w)).
Proof.
  intros Hst Hok Hsel. apply call_undefined; try assumption.
  apply stated_path_none. exact Hsel.
Qed.

Lemma undefined_selector_is_refused_witness :
  call Fixture.store Fixture.ICUDATA_NAME (Some "en_US")
    (ListPattern UATIMEUNITSTYLE_FULL 4) 8 (Fixture.fresh U_ZERO_ERROR (Some 8%nat))
  = Some (0, mkWorld U_ILLEGAL_ARGUMENT_ERROR (Some (repeat 65535 8)) []).
Proof.
  apply (undefined_selector_is_refused Fixture.store Fixture.ICUDATA_NAME
           (Some "en_US") (ListPattern UATIMEUNITSTYLE_FULL 4) 8
           (Fixture.fresh U_ZERO_ERROR (Some 8%nat))).
  - reflexivity.
  - simpl. lia.
  - right. simpl. intros H.
    repeat (destruct H as [H|H]; [discriminate|]). exact H.
Defined.

(** C6: for a call with defined selectors whose path the store resolves to a
    pattern, the value either function returns is the pattern's length, the
    same for every valid buffer/capacity pair; a call with a null buffer and
    capacity 0 returns that length too. *)
Theorem returned_length_ignores_capacity
    {B : Type} (icu : ResourceStore B) (NAME : string) (locale : option string)
    (f : entry) (path : option string * list string * string)
    (pat : list UChar) (st : UErrorCode) (log : list access) :
  succeeded st ->
  stated_path NAME f = Some path ->
  resolves_to (answer icu locale path st) pat ->
  (forall buf cap,
      valid_pair buf cap ->
      exists w',
        call icu NAME locale f cap (mkWorld st buf log)
        = Some (Z.of_nat (List.length pat), w')) /\
  (exists w',
      call icu NAME locale f 0 (mkWorld st None log)
      = Some (Z.of_nat (List.length pat), w')).
Proof.
  intros Hst Hpath Hres.
  apply resolves_to_answer in Hres. destruct Hres as [Hans Hok].
  assert (Hall : forall buf cap,
             valid_pair buf cap ->
             exists w',
               call icu NAME locale f cap (mkWorld st buf log)
               = Some (Z.of_nat (List.length pat), w')).
  { intros buf cap Hvalid.
    rewrite (call_lookup icu NAME locale f cap (mkWorld st buf log) path Hst
               (valid_pair_accepted buf cap Hvalid) Hpath).
    cbn [status]. rewrite Hans.
    destruct (extract_returns pat cap (looked_up icu locale path (mkWorld st buf log)))
      as (w' & E & _).
    - rewrite looked_up_status. exact Hok.
    - rewrite looked_up_result. exact Hvalid.
    - exists w'. exact E. }
  split; [exact Hall|].
  apply Hall. reflexivity.
Qed.

Lemma returned_length_ignores_capacity_witness :
  (forall buf cap,
      valid_pair buf cap ->
      exists w',
        call Fixture.store Fixture.ICUDATA_NAME (Some "en_US")
          (ListPattern UATIMEUNITSTYLE_SHORTER UATIMEUNITLISTPAT_MIDDLE_PIECE) cap
          (mkWorld U_ZERO_ERROR buf [])
        = Some (Z.of_nat (List.length (Fixture.utf16 "{0} {1}")), w')) /\
  (exists w',
      call Fixture.store Fixture.ICUDATA_NAME (Some "en_US")
        (ListPattern UATIMEUNITSTYLE_SHORTER UATIMEUNITLISTPAT_MIDDLE_PIECE) 0
        (mkWorld U_ZERO_ERROR None [])
      = Some (Z.of_nat (List.length (Fixture.utf16 "{0} {1}")), w')).
Proof.
  apply (returned_length_ignores_capacity Fixture.store Fixture.ICUDATA_NAME
           (Some "en_US")
           (ListPattern UATIMEUNITSTYLE_SHORTER UATIMEUNITLISTPAT_MIDDLE_PIECE)
           (None, ["listPattern"; "unit-narrow"], "middle")).
  - reflexivity.
  - reflexivity.
  - repeat split; reflexivity.
Defined.

Lemma content_pattern (pat rest : list UChar) (st : UErrorCode) (log : list access) :
  content (Z.of_nat (List.length pat)) (mkWorld st (Some (pat ++ rest)) log)
  = Some pat.
Proof.
  unfold content. cbn. rewrite Nat2Z.id, firstn_text_nul. reflexivity.
Qed.

(** The fill: a successful call whose capacity is at least the pattern's
    length leaves the pattern in the first units of the array. *)
Lemma call_fills
    {B : Type} (icu : ResourceStore B) (NAME : string) (locale : option string)
    (f : entry) (path : option string * list string * string)
    (pat arr : list UChar) (cap : int32) (w : world) :
  succeeded (status w) ->
  result w = Some arr ->
  stated_path NAME f = Some path ->
  resolves_to (answer icu locale path (status w)) pat ->
  text pat ->
  Z.of_nat (List.length pat) <= cap <= Z.of_nat (List.length arr) ->
  exists w',
    call icu NAME locale f cap w = Some (Z.of_nat (List.length pat), w') /\
    content (Z.of_nat (List.length pat)) w' = Some pat.
Proof.
  intros Hst Harr Hpath Hres Htext Hcap.
  apply resolves_to_answer in Hres. destruct Hres as [Hans Hok].
  rewrite (call_lookup icu NAME locale f cap w path Hst) by
    (try assumption; rewrite Harr; simpl; lia).
  rewrite Hans.
  destruct (Z.eq_dec cap (Z.of_nat (List.length pat))) as [Heq|Hne].
  - rewrite (extract_exact pat cap).
    + eexists. split; [reflexivity|].
      rewrite looked_up_result, Harr. cbn [option_map].
      apply content_pattern.
    + rewrite looked_up_status. exact Hok.
    + exact Htext.
    + exact Heq.
    + rewrite looked_up_result, Harr. simpl. lia.
  - rewrite (extract_fits pat arr cap).
    + eexists. split; [reflexivity|]. apply content_pattern.
    + rewrite looked_up_status. exact Hok.
    + rewrite looked_up_result. exact Harr.
    + exact Htext.
    + lia.
Qed.

(** C7, amended: a call with zero capacity returns the pattern's length [n];
    once the caller has reset the status to a success value, a second call
    with capacity [n], made in the state the first call left (its record of
    store accesses, the reset status, the caller's array), and a single call
    with ample capacity both return [n] and leave the same [n] units, the
    pattern, in their arrays. *)
Theorem preflight_reset_then_fill
    {B : Type} (icu : ResourceStore B) (NAME : string) (locale : option string)
    (f : entry) (path : option string * list string * string)
    (pat arr1 arr2 : list UChar) (reset : UErrorCode) (ample : int32)
    (w0 w2 : world) :
  stated_path NAME f = Some path ->
  text pat ->
  succeeded (status w0) -> valid_pair (result w0) 0 ->
  resolves_to (answer icu locale path (status w0)) pat ->
  succeeded reset ->
  resolves_to (answer icu locale path reset) pat ->
  Z.of_nat (List.length pat) <= Z.of_nat (List.length arr1) ->
  succeeded (status w2) -> result w2 = Some arr2 ->
  resolves_to (answer icu locale path (status w2)) pat ->
  Z.of_nat (List.length pat) <= ample <= Z.of_nat (List.length arr2) ->
  exists n w0' w1' w2',
    call icu NAME locale f 0 w0 = Some (n, w0') /\
    call icu NAME locale f n (mkWorld reset (Some arr1) (accesses w0'))
    = Some (n, w1') /\
    call icu NAME locale f ample w2 = Some (n, w2') /\
    n = Z.of_nat (List.length pat) /\
    content n w1' = content n w2' /\
    content n w1' = Some pat.
Proof.
  intros Hpath Htext Hst0 Hv0 Hres0 Hst1 Hres1 Hlen1 Hst2 Harr2 Hres2 Hlen2.
  assert (H0 : exists w0',
             call icu NAME locale f 0 w0 = Some (Z.of_nat (List.length pat), w0')).
  { pose proof (resolves_to_answer _ _ Hres0) as [Hans Hok].
    rewrite (call_lookup icu NAME locale f 0 w0 path Hst0
               (valid_pair_accepted _ _ Hv0) Hpath).
    rewrite Hans.
    destruct (extract_returns pat 0 (looked_up icu locale path w0)) as (w' & E & _).
    - rewrite looked_up_status. exact Hok.
    - rewrite looked_up_result. exact Hv0.
    - exists w'. exact E. }
  destruct H0 as (w0' & E0).
  destruct (call_fills icu NAME locale f path pat arr1
              (Z.of_nat (List.length pat))
              (mkWorld reset (Some arr1) (accesses w0'))) as (w1' & E1 & C1);
    try assumption; try reflexivity; [lia|].
  destruct (call_fills icu NAME locale f path pat arr2 ample w2)
    as (w2' & E2 & C2); try assumption.
  exists (Z.of_nat (List.length pat)), w0', w1', w2'.
  repeat split; try assumption. congruence.
Qed.

Lemma preflight_reset_then_fill_witness :
  exists n w0' w1' w2',
    call Fixture.store Fixture.ICUDATA_NAME (Some "en_US")
      (TimePattern UATIMEUNITTIMEPAT_HM) 0 (Fixture.fresh U_ZERO_ERROR None)
    = Some (n, w0') /\
    call Fixture.store Fixture.ICUDATA_NAME (Some "en_US")
      (TimePattern UATIMEUNITTIMEPAT_HM) n
      (mkWorld U_ZERO_ERROR (Some (repeat 65535 4)) (accesses w0'))
    = Some (n, w1') /\
    call Fixture.store Fixture.ICUDATA_NAME (Some "en_US")
      (TimePattern UATIMEUNITTIMEPAT_HM) 16 (Fixture.fresh U_ZERO_ERROR (Some 16%nat))
    = Some (n, w2') /\
    n = Z.of_nat (List.length (Fixture.utf16 "h.mm")) /\
    content n w1' = content n w2' /\
    content n w1' = Some (Fixture.utf16 "h.mm").
Proof.
  apply (preflight_reset_then_fill Fixture.store Fixture.ICUDATA_NAME (Some "en_US")
           (TimePattern UATIMEUNITTIMEPAT_HM)
           (Some "icudt74l-unit", ["durationUnits"], "hm")
           (Fixture.utf16 "h.mm") (repeat 65535 4) (repeat 65535 16)
           U_ZERO_ERROR 16).
  - reflexivity.
  - text_literal.
  - reflexivity.
  - reflexivity.
  - repeat split; reflexivity.
  - reflexivity.
  - repeat split; reflexivity.
  - simpl. lia.
  - reflexivity.
  - reflexivity.
  - repeat split; reflexivity.
  - simpl. lia.
Defined.

(** C7 as stated fails when the two calls are made one after the other with
    nothing in between: on the fixture the zero-capacity call for the
    hours-minutes pattern of "en_US" returns 4 and leaves the buffer-overflow
    error in the status; the second call, with capacity 4 and that status,
    returns 0 and leaves its array as it was, while a single call with
    capacity 16 leaves "h.mm" in the first four units. *)
Lemma recall_without_reset_writes_nothing :
  exists n w0' w1' w2',
    call Fixture.store Fixture.ICUDATA_NAME (Some "en_US")
      (TimePattern UATIMEUNITTIMEPAT_HM) 0 (Fixture.fresh U_ZERO_ERROR None)
    = Some (n, w0') /\
    status w0' = U_BUFFER_OVERFLOW_ERROR /\
    call Fixture.store Fixture.ICUDATA_NAME (Some "en_US")
      (TimePattern UATIMEUNITTIMEPAT_HM) n
      (mkWorld (status w0') (Some (repeat 65535 4)) (accesses w0'))
    = Some (0, w1') /\
    result w1' = Some (repeat 65535 4) /\
    call Fixture.store Fixture.ICUDATA_NAME (Some "en_US")
      (TimePattern UATIMEUNITTIMEPAT_HM) 16 (Fixture.fresh U_ZERO_ERROR (Some 16%nat))
    = Some (n, w2') /\
    n = 4 /\
    content n w2' = Some (Fixture.utf16 "h.mm") /\
    content n w1' <> content n w2'.
Proof.
  exists 4.
  exists (mkWorld U_BUFFER_OVERFLOW_ERROR None
            [Open (Some "icudt74l-unit") (Some "en_US");
             GetByKeyWithFallback "durationUnits";
             GetStringByKeyWithFallback "hm"; Close]).
  exists (mkWorld U_BUFFER_OVERFLOW_ERROR (Some (repeat 65535 4))
            [Open (Some "icudt74l-unit") (Some "en_US");
             GetByKeyWithFallback "durationUnits";
             GetStringByKeyWithFallback "hm"; Close]).
  exists (mkWorld U_ZERO_ERROR
            (Some (Fixture.utf16 "h.mm" ++ 0 :: repeat 65535 11))
            [Open (Some "icudt74l-unit") (Some "en_US");
             GetByKeyWithFallback "durationUnits";
             GetStringByKeyWithFallback "hm"; Close]).
  repeat (split; [reflexivity|]).
  vm_compute. discriminate.
Qed.

(** C8: uatmufmt_getListPattern called with the narrow style and called with
    the shorter style are the same computation, for every store, locale, list
    position, capacity and entry state (status, array, access record): the same
    returned value and the same final state.  Both styles select the key
    "unit-narrow". *)
Theorem narrow_and_shorter_agree
    {B : Type} (icu : ResourceStore B) (locale : option string)
    (type : UATimeUnitListPattern) (cap : int32) (w : world) :
  uatmufmt_getListPattern icu locale UATIMEUNITSTYLE_NARROW type cap w
  = uatmufmt_getListPattern icu locale UATIMEUNITSTYLE_SHORTER type cap w /\
  listStyleKey UATIMEUNITSTYLE_NARROW = Some "unit-narrow" /\
  listStyleKey UATIMEUNITSTYLE_SHORTER = Some "unit-narrow".
Proof.
  split; [|split; reflexivity].
  unfold uatmufmt_getListPattern.
  change (listStyleKey UATIMEUNITSTYLE_NARROW) with (Some "unit-narrow").
  change (listStyleKey UATIMEUNITSTYLE_SHORTER) with (Some "unit-narrow").
  reflexivity.
Qed.

(** C9: when a call fails because a selector is outside the defined variants,
    because the buffer/capacity pair is refused, or because the store reports a
    failure on the stated path (a key missing after the fallback chain), the
    function returns with a status that signals failure, a value no successful
    call leaves, and with the array exactly as it was on entry: nothing is
    written to it. *)
Theorem failure_leaves_buffer_untouched
    {B : Type} (icu : ResourceStore B) (NAME : string) (locale : option string)
    (f : entry) (cap : int32) (w : world) :
  undefined_selector f \/
  ~ accepted_pair (result w) cap \/
  (exists path,
      stated_path NAME f = Some path /\
      U_FAILURE (snd (answer icu locale path (status w))) = true) ->
  exists r w',
    call icu NAME locale f cap w = Some (r, w') /\
    U_FAILURE (status w') = true /\
    result w' = result w.
Proof.
  intros Hfail.
  destruct (U_FAILURE (status w)) eqn:Hst.
  { rewrite call_failed_entry by assumption.
    eexists _, _. split; [reflexivity|]. split; [assumption|reflexivity]. }
  destruct (accepted_pair_dec (result w) cap) as [Hok|Hbad].
  2:{ rewrite call_refused by assumption.
      eexists _, _. split; [reflexivity|]. split; reflexivity. }
  destruct Hfail as [Hsel|[Hbad|(path & Hpath & Hmiss)]].
  - rewrite call_undefined by (try assumption; apply stated_path_none; exact Hsel).
    eexists _, _. split; [reflexivity|]. split; reflexivity.
  - contradiction.
  - rewrite (call_lookup icu NAME locale f cap w path Hst Hok Hpath).
    rewrite extract_failed.
    + eexists _, _. split; [reflexivity|]. cbn [status result].
      rewrite looked_up_status, looked_up_result. split; [exact Hmiss|reflexivity].
    + rewrite looked_up_status, U_SUCCESS_not_FAILURE, Hmiss. reflexivity.
Qed.

Lemma failure_leaves_buffer_untouched_witness :
  exists r w',
    call Fixture.store Fixture.ICUDATA_NAME (Some "en_US")
      (ListPattern UATIMEUNITSTYLE_ABBREVIATED UATIMEUNITLISTPAT_START_PIECE) 8
      (Fixture.fresh U_ZERO_ERROR (Some 8%nat))
    = Some (r, w') /\
    U_FAILURE (status w') = true /\
    result w' = result (Fixture.fresh U_ZERO_ERROR (Some 8%nat)).
Proof.
  apply (failure_leaves_buffer_untouched Fixture.store Fixture.ICUDATA_NAME).
  right. right.
  exists (None, ["listPattern"; "unit-short"], "start").
  split; reflexivity.
Defined.

(** C10: when the resolved pattern's length equals the capacity, either
    function copies the pattern's units into the array and stores no NUL (the
    array behind the pattern is as it was), leaves the string-not-terminated
    warning in the status, and returns the pattern's length. *)
Theorem exact_fit_is_not_terminated
    {B : Type} (icu : ResourceStore B) (NAME : string) (locale : option string)
    (f : entry) (path : option string * list string * string)
    (pat : list UChar) (cap : int32) (w : world) :
  succeeded (status w) ->
  valid_pair (result w) cap ->
  stated_path NAME f = Some path ->
  resolves_to (answer icu locale path (status w)) pat ->
  text pat ->
  cap = Z.of_nat (List.length pat) ->
  exists w',
    call icu NAME locale f cap w = Some (Z.of_nat (List.length pat), w') /\
    status w' = U_STRING_NOT_TERMINATED_WARNING /\
    result w'
    = option_map (fun arr => pat ++ skipn (List.length pat) arr) (result w).
Proof.
  intros Hst Hvalid Hpath Hres Htext Hcap.
  apply resolves_to_answer in Hres. destruct Hres as [Hans Hok].
  rewrite (call_lookup icu NAME locale f cap w path Hst
             (valid_pair_accepted _ _ Hvalid) Hpath).
  rewrite Hans, (extract_exact pat cap).
  - eexists. split; [reflexivity|]. split; [reflexivity|].
    cbn [result]. rewrite looked_up_result. reflexivity.
  - rewrite looked_up_status. exact Hok.
  - exact Htext.
  - exact Hcap.
  - rewrite looked_up_result. exact Hvalid.
Qed.

Lemma exact_fit_is_not_terminated_witness :
  exists w',
    call Fixture.store Fixture.ICUDATA_NAME (Some "de")
      (TimePattern UATIMEUNITTIMEPAT_MS) 4 (Fixture.fresh U_ZERO_ERROR (Some 6%nat))
    = Some (Z.of_nat (List.length (Fixture.utf16 "m:ss")), w') /\
    status w' = U_STRING_NOT_TERMINATED_WARNING /\
    result w'
    = option_map (fun arr => Fixture.utf16 "m:ss"
                             ++ skipn (List.length (Fixture.utf16 "m:ss")) arr)
        (result (Fixture.fresh U_ZERO_ERROR (Some 6%nat))).
Proof.
  apply (exact_fit_is_not_terminated Fixture.store Fixture.ICUDATA_NAME (Some "de")
           (TimePattern UATIMEUNITTIMEPAT_MS)
           (Some "icudt74l-unit", ["durationUnits"], "ms")).
  - reflexivity.
  - simpl. lia.
  - reflexivity.
  - repeat split; reflexivity.
  - text_literal.
  - reflexivity.
Defined.

(** * Further behaviour of the two functions *)

(** ** What the copy and the terminator store leave alone *)

Lemma same_beyond_refl (cap : int32) (buf : option (list UChar)) :
  same_beyond cap buf buf.
Proof. destruct buf; simpl; auto. Qed.

Lemma same_beyond_trans (cap : int32) (a b c : option (list UChar)) :
  same_beyond cap a b -> same_beyond cap b c -> same_beyond cap a c.
Proof.
  destruct a, b, c; simpl; try tauto.
  intros [L1 S1] [L2 S2]. split; congruence.
Qed.

Lemma same_beyond_valid (cap : int32) (a b : option (list UChar)) :
  same_beyond cap a b -> valid_pair a cap -> valid_pair b cap.
Proof.
  destruct a, b; simpl; try tauto. intros [L _]. rewrite L. tauto.
Qed.

Lemma strncpy_loop_frame (n : nat) :
  forall (dst src dst' : list UChar),
    strncpy_loop n dst src = Some dst' ->
    List.length dst' = List.length dst /\ skipn n dst' = skipn n dst.
Proof.
  induction n as [|n IH]; intros dst src dst' H.
  - injection H as <-. split; reflexivity.
  - destruct src as [|c src']; [discriminate|].
    destruct dst as [|d rest]; [discriminate|].
    cbn [strncpy_loop] in H. destruct (c =? 0).
    + injection H as <-. split; reflexivity.
    + destruct (strncpy_loop n rest src') as [rest'|] eqn:E; [|discriminate].
      injection H as <-. destruct (IH rest src' rest' E) as [L S].
      split; [simpl; lia|exact S].
Qed.

Lemma store_at_frame (v : UChar) :
  forall (arr arr' : list UChar) (i : nat),
    store_at arr i v = Some arr' ->
    List.length arr' = List.length arr /\
    forall n, (i < n)%nat -> skipn n arr' = skipn n arr.
Proof.
  induction arr as [|c rest IH]; intros arr' i H; [discriminate|].
  destruct i as [|i'].
  - injection H as <-. split; [reflexivity|].
    intros n Hn. destruct n; [lia|reflexivity].
  - cbn [store_at] in H.
    destruct (store_at rest i' v) as [rest'|] eqn:E; [|discriminate].
    injection H as <-. destruct (IH rest' i' E) as [L S].
    split; [simpl; lia|].
    intros n Hn. destruct n; [lia|]. simpl. apply S. lia.
Qed.

Lemma u_strncpy_frame (pat : list UChar) (cap : int32) (w : world) :
  valid_pair (result w) cap ->
  exists w1,
    u_strncpy (Some (pat ++ [0])) cap w = Some (tt, w1) /\
    status w1 = status w /\
    accesses w1 = accesses w /\
    same_beyond cap (result w) (result w1).
Proof.
  intros Hvalid. unfold u_strncpy.
  destruct (Z.leb_spec cap 0) as [Hle|Hgt].
  - exists w. repeat split. apply same_beyond_refl.
  - destruct (result w) as [arr|] eqn:Harr; [|simpl in Hvalid; lia].
    simpl in Hvalid.
    destruct (strncpy_loop_safe (Z.to_nat cap) pat arr) as (arr' & E & L); [lia|].
    rewrite E. eexists. repeat split.
    + exact L.
    + apply (strncpy_loop_frame _ _ _ _ E).
Qed.

(** The terminator step in full: what it returns, what it leaves of the array,
    and the status it leaves. *)
Lemma terminate_outcome (cap len : int32) (w : world) :
  U_SUCCESS (status w) = true ->
  0 <= len ->
  valid_pair (result w) cap ->
  exists w',
    u_terminateUChars cap len w = Some (len, w') /\
    accesses w' = accesses w /\
    same_beyond cap (result w) (result w') /\
    status w'
    = if len <? cap
      then (if status w =? U_STRING_NOT_TERMINATED_WARNING
            then U_ZERO_ERROR else status w)
      else if len =? cap then U_STRING_NOT_TERMINATED_WARNING
           else U_BUFFER_OVERFLOW_ERROR.
Proof.
  intros Hst Hlen Hvalid.
  unfold u_terminateUChars, bind, get_status, store_result, set_status, ret.
  cbn. rewrite Hst.
  destruct (Z.ltb_spec len 0) as [Hneg|_]; [lia|].
  destruct (Z.ltb_spec len cap) as [Hlt|Hge].
  - destruct (result w) as [arr|] eqn:Harr; [|simpl in Hvalid; lia].
    simpl in Hvalid. unfold bind.
    destruct (Z.ltb_spec len 0) as [Hneg|_]; [lia|].
    destruct (store_at arr (Z.to_nat len) 0) as [arr'|] eqn:E.
    2:{ rewrite store_at_spec in E by lia. discriminate. }
    destruct (store_at_frame 0 arr arr' (Z.to_nat len) E) as [L S].
    destruct (status w =? U_STRING_NOT_TERMINATED_WARNING);
      eexists; (split; [reflexivity|]); cbn [accesses result status];
      (split; [reflexivity|]); (split; [|reflexivity]);
      (split; [exact L|apply S; lia]).
  - destruct (len =? cap); eexists; (split; [reflexivity|]); cbn;
      (split; [reflexivity|]); (split; [apply same_beyond_refl|reflexivity]).
Qed.

(** The String Extractor step on a well-formed successful answer, whatever
    the string and the capacity. *)
Lemma extract_outcome (pat : list UChar) (cap : int32) (w : world) :
  U_SUCCESS (status w) = true ->
  valid_pair (result w) cap ->
  exists w',
    extract_string (Some (pat ++ [0]), Z.of_nat (List.length pat)) cap w
    = Some (Z.of_nat (List.length pat), w') /\
    accesses w' = accesses w ++ [Close] /\
    same_beyond cap (result w) (result w') /\
    status w'
    = if Z.of_nat (List.length pat) <? cap
      then (if status w =? U_STRING_NOT_TERMINATED_WARNING
            then U_ZERO_ERROR else status w)
      else if Z.of_nat (List.length pat) =? cap
           then U_STRING_NOT_TERMINATED_WARNING
           else U_BUFFER_OVERFLOW_ERROR.
Proof.
  intros Hst Hvalid.
  destruct (u_strncpy_frame pat cap w Hvalid) as (w1 & E1 & Hs1 & Ha1 & Hf1).
  destruct (terminate_outcome cap (Z.of_nat (List.length pat))
              (mkWorld (status w1) (result w1) (accesses w1 ++ [Close])))
    as (w' & E2 & Ha2 & Hf2 & Hs2).
  - cbn. rewrite Hs1. exact Hst.
  - lia.
  - cbn. apply (same_beyond_valid cap (result w)); assumption.
  - exists w'. cbn in Ha2, Hf2, Hs2.
    split; [|split; [|split]].
    + unfold extract_string, bind at 1 2, get_status. cbn [fst snd].
      rewrite Hst, E1. unfold bind, record. exact E2.
    + rewrite Ha2, Ha1. reflexivity.
    + apply (same_beyond_trans cap _ (result w1)); assumption.
    + rewrite Hs2, Hs1. reflexivity.
Qed.

(** The pattern does not fit: the copy stops at the capacity. *)
Lemma extract_truncated (pat : list UChar) (cap : int32) (w : world) :
  U_SUCCESS (status w) = true ->
  text pat ->
  cap < Z.of_nat (List.length pat) ->
  valid_pair (result w) cap ->
  extract_string (Some (pat ++ [0]), Z.of_nat (List.length pat)) cap w
  = Some (Z.of_nat (List.length pat),
          mkWorld U_BUFFER_OVERFLOW_ERROR
                  (option_map (fun arr => firstn (Z.to_nat cap) pat
                                          ++ skipn (Z.to_nat cap) arr)
                              (result w))
                  (accesses w ++ [Close])).
Proof.
  intros Hst Htext Hcap Hvalid.
  assert (Hend : forall buf,
             u_terminateUChars cap (Z.of_nat (List.length pat))
               (mkWorld (status w) buf (accesses w ++ [Close]))
             = Some (Z.of_nat (List.length pat),
                     mkWorld U_BUFFER_OVERFLOW_ERROR buf (accesses w ++ [Close]))).
  { intros buf.
    unfold u_terminateUChars, bind, get_status, set_status, ret.
    cbn. rewrite Hst.
    destruct (Z.ltb_spec (Z.of_nat (List.length pat)) 0) as [Hneg|_]; [lia|].
    destruct (Z.ltb_spec (Z.of_nat (List.length pat)) cap) as [Hlt|_]; [lia|].
    destruct (Z.eqb_spec (Z.of_nat (List.length pat)) cap) as [Heq|_]; [lia|].
    reflexivity. }
  unfold extract_string, bind at 1 2 3, get_status, u_strncpy, record.
  cbn [fst snd]. rewrite Hst.
  destruct (Z.leb_spec cap 0) as [Hle|Hgt].
  - cbn [accesses status result]. rewrite Hend.
    destruct (result w) as [arr|] eqn:Harr; simpl in Hvalid.
    + replace cap with 0 by lia. reflexivity.
    + reflexivity.
  - destruct (result w) as [arr|] eqn:Harr; [|simpl in Hvalid; lia].
    simpl in Hvalid.
    rewrite (strncpy_loop_text (Z.to_nat cap) pat arr Htext) by lia.
    cbn [accesses status result]. rewrite Hend. cbn [option_map].
    rewrite firstn_app.
    replace (Z.to_nat cap - List.length pat)%nat with 0%nat by lia.
    replace (Nat.min (Z.to_nat cap) (S (List.length pat))) with (Z.to_nat cap) by lia.
    cbn [firstn]. rewrite app_nil_r. reflexivity.
Qed.

(** The String Extractor step through a null pointer with capacity 0 touches
    no memory, whatever the store answered. *)
Lemma extract_null (a : option (list UChar) * int32) (w : world) :
  result w = None ->
  exists w',
    extract_string a 0 w = Some (snd a, w') /\
    result w' = None /\
    accesses w' = accesses w ++ [Close].
Proof.
  intros Hnull.
  unfold extract_string, bind, get_status, u_strncpy, record,
    u_terminateUChars, store_result, set_status, ret.
  cbn -[Z.ltb Z.eqb].
  destruct (U_SUCCESS (status w)) eqn:Hst; cbn -[Z.ltb Z.eqb]; rewrite ?Hst.
  - destruct (snd a <? 0) eqn:Hneg; cbn -[Z.ltb Z.eqb].
    + eexists. split; [reflexivity|]. split; [exact Hnull|reflexivity].
    + destruct (snd a =? 0); cbn -[Z.ltb Z.eqb];
        eexists; (split; [reflexivity|]); (split; [exact Hnull|reflexivity]).
  - eexists. split; [reflexivity|]. split; [exact Hnull|reflexivity].
Qed.

(** ** Truncation, memory safety and the null-pointer preflight *)

(** X1: when the resolved pattern is longer than the capacity, either function
    copies only the first [capacity] units of the pattern, stores no NUL,
    leaves the rest of the array as it was, sets the status to the
    buffer-overflow error and still returns the full length. *)
Theorem truncated_to_capacity
    {B : Type} (icu : ResourceStore B) (NAME : string) (locale : option string)
    (f : entry) (path : option string * list string * string)
    (pat : list UChar) (cap : int32) (w : world) :
  succeeded (status w) ->
  valid_pair (result w) cap ->
  stated_path NAME f = Some path ->
  resolves_to (answer icu locale path (status w)) pat ->
  text pat ->
  cap < Z.of_nat (List.length pat) ->
  exists w',
    call icu NAME locale f cap w = Some (Z.of_nat (List.length pat), w') /\
    status w' = U_BUFFER_OVERFLOW_ERROR /\
    result w'
    = option_map (fun arr => firstn (Z.to_nat cap) pat ++ skipn (Z.to_nat cap) arr)
        (result w).
Proof.
  intros Hst Hvalid Hpath Hres Htext Hcap.
  apply resolves_to_answer in Hres. destruct Hres as [Hans Hok].
  rewrite (call_lookup icu NAME locale f cap w path Hst
             (valid_pair_accepted _ _ Hvalid) Hpath).
  rewrite Hans, (extract_truncated pat cap).
  - eexists. split; [reflexivity|]. split; [reflexivity|].
    cbn [result]. rewrite looked_up_result. reflexivity.
  - rewrite looked_up_status. exact Hok.
  - exact Htext.
  - exact Hcap.
  - rewrite looked_up_result. exact Hvalid.
Qed.

Lemma truncated_to_capacity_witness :
  exists w',
    call Fixture.store Fixture.ICUDATA_NAME (Some "fr")
      (TimePattern UATIMEUNITTIMEPAT_HMS) 3 (Fixture.fresh U_ZERO_ERROR (Some 5%nat))
    = Some (Z.of_nat (List.length (Fixture.utf16 "h:mm:ss")), w') /\
    status w' = U_BUFFER_OVERFLOW_ERROR /\
    result w'
    = option_map (fun arr => firstn (Z.to_nat 3) (Fixture.utf16 "h:mm:ss")
                             ++ skipn (Z.to_nat 3) arr)
        (result (Fixture.fresh U_ZERO_ERROR (Some 5%nat))).
Proof.
  apply (truncated_to_capacity Fixture.store Fixture.ICUDATA_NAME (Some "fr")
           (TimePattern UATIMEUNITTIMEPAT_HMS)
           (Some "icudt74l-unit", ["durationUnits"], "hms")).
  - reflexivity.
  - simpl. lia.
  - reflexivity.
  - repeat split; reflexivity.
  - text_literal.
  - simpl. lia.
Defined.

(** X2: a call with a valid buffer/capacity pair always returns, never changes
    the size of the array and never writes at or behind index [capacity],
    whatever the entry status, the selectors and the string the store hands
    out (NUL units inside included), as long as the store's answer is well
    formed. *)
Theorem writes_stay_within_capacity
    {B : Type} (icu : ResourceStore B) (NAME : string) (locale : option string)
    (f : entry) (cap : int32) (w : world) :
  valid_pair (result w) cap ->
  (forall path,
      stated_path NAME f = Some path ->
      well_formed (answer icu locale path (status w))) ->
  exists r w',
    call icu NAME locale f cap w = Some (r, w') /\
    same_beyond cap (result w) (result w').
Proof.
  intros Hvalid Hwf.
  destruct (U_FAILURE (status w)) eqn:Hst.
  { rewrite call_failed_entry by assumption.
    eexists _, _. split; [reflexivity|apply same_beyond_refl]. }
  pose proof (valid_pair_accepted _ _ Hvalid) as Hok.
  destruct (stated_path NAME f) as [path|] eqn:Hpath.
  2:{ rewrite call_undefined by assumption.
      eexists _, _. split; [reflexivity|apply same_beyond_refl]. }
  rewrite (call_lookup icu NAME locale f cap w path Hst Hok Hpath).
  destruct (Hwf path eq_refl) as [Hfail|[pat Hres]].
  - rewrite extract_failed
      by (rewrite looked_up_status, U_SUCCESS_not_FAILURE, Hfail; reflexivity).
    eexists _, _. split; [reflexivity|]. cbn [result].
    rewrite looked_up_result. apply same_beyond_refl.
  - apply resolves_to_answer in Hres. destruct Hres as [Hans Hsucc].
    rewrite Hans.
    destruct (extract_outcome pat cap (looked_up icu locale path w))
      as (w' & E & _ & Hframe & _).
    + rewrite looked_up_status. exact Hsucc.
    + rewrite looked_up_result. exact Hvalid.
    + rewrite looked_up_result in Hframe.
      exists (Z.of_nat (List.length pat)), w'. split; assumption.
Qed.

Lemma writes_stay_within_capacity_witness :
  exists r w',
    call Fixture.store Fixture.ICUDATA_NAME (Some "en_US")
      (ListPattern UATIMEUNITSTYLE_FULL UATIMEUNITLISTPAT_END_PIECE) 5
      (Fixture.fresh U_ZERO_ERROR (Some 9%nat))
    = Some (r, w') /\
    same_beyond 5 (result (Fixture.fresh U_ZERO_ERROR (Some 9%nat))) (result w').
Proof.
  apply (writes_stay_within_capacity Fixture.store Fixture.ICUDATA_NAME).
  - simpl. lia.
  - intros path Hpath. injection Hpath as <-.
    right. exists (Fixture.utf16 "{0}, and {1}"). repeat split; reflexivity.
Defined.

(** X3: a call with a null buffer and capacity 0 always returns and touches no
    memory, for every store and every answer it gives, well formed or not, and
    for every entry status and selector. *)
Theorem null_buffer_call_is_safe
    {B : Type} (icu : ResourceStore B) (NAME : string) (locale : option string)
    (f : entry) (st : UErrorCode) (log : list access) :
  exists r w',
    call icu NAME locale f 0 (mkWorld st None log) = Some (r, w') /\
    result w' = None.
Proof.
  set (w := mkWorld st None log).
  destruct (U_FAILURE (status w)) eqn:Hst.
  { rewrite call_failed_entry by assumption.
    eexists _, _. split; reflexivity. }
  assert (Hok : accepted_pair (result w) 0) by reflexivity.
  destruct (stated_path NAME f) as [path|] eqn:Hpath.
  2:{ rewrite call_undefined by assumption.
      eexists _, _. split; reflexivity. }
  rewrite (call_lookup icu NAME locale f 0 w path Hst Hok Hpath).
  destruct (extract_null (fst (answer icu locale path (status w)))
              (looked_up icu locale path w)) as (w' & E & Hnull & _).
  - rewrite looked_up_result. reflexivity.
  - eexists _, w'. split; [exact E|exact Hnull].
Qed.

(** ** The store calls, the returned value and the status on failure *)

Lemma looked_up_accesses {B} (icu : ResourceStore B) locale package chain leaf
    (w : world) :
  accesses (looked_up icu locale (package, chain, leaf) w)
  = accesses w ++ path_accesses package locale chain leaf.
Proof. reflexivity. Qed.

Lemma fold_descend_failure {B} (icu : ResourceStore B) :
  passes_failure icu ->
  forall (chain : list string) (h : option B * UErrorCode),
    U_FAILURE (snd h) = true ->
    snd (fold_left (descend icu) chain h) = snd h.
Proof.
  intros [Hkey _]. induction chain as [|key rest IH]; intros h Hfail.
  - reflexivity.
  - cbn [fold_left].
    assert (Hstep : snd (descend icu h key) = snd h)
      by (unfold descend; apply Hkey; exact Hfail).
    rewrite IH by (rewrite Hstep; exact Hfail). exact Hstep.
Qed.

Lemma fixture_passes_failure : passes_failure Fixture.store.
Proof.
  split; intros resB inKey x st Hfail; cbn;
    [unfold Fixture.fx_getByKeyWithFallback
    |unfold Fixture.fx_getStringByKeyWithFallback];
    rewrite Hfail; reflexivity.
Qed.

Lemma fixture_leaves_length : leaves_length Fixture.store.
Proof.
  intros resB inKey len st. cbn.
  unfold Fixture.fx_getStringByKeyWithFallback.
  destruct (U_FAILURE st) eqn:Hst; [reflexivity|].
  destruct resB as [b|]; [|reflexivity].
  destruct (Fixture.lookup b inKey) as [[s|entries]|]; cbn; try reflexivity.
  intros Hfail. congruence.
Qed.

(** X4: a call that passes the entry checks opens the bundle once, makes the
    lookups of its path in order, and closes the bundle as its last store
    call; this holds also when the lookup fails, there is no early exit that
    skips the close. *)
Theorem bundle_is_always_closed
    {B : Type} (icu : ResourceStore B) (NAME : string) (locale : option string)
    (f : entry) (package : option string) (chain : list string) (leaf : string)
    (cap : int32) (w : world) :
  succeeded (status w) ->
  valid_pair (result w) cap ->
  stated_path NAME f = Some (package, chain, leaf) ->
  well_formed (answer icu locale (package, chain, leaf) (status w)) ->
  exists r w',
    call icu NAME locale f cap w = Some (r, w') /\
    accesses w'
    = accesses w ++ Open package locale :: map GetByKeyWithFallback chain
        ++ [GetStringByKeyWithFallback leaf; Close].
Proof.
  intros Hst Hvalid Hpath Hwf.
  rewrite (call_lookup icu NAME locale f cap w _ Hst
             (valid_pair_accepted _ _ Hvalid) Hpath).
  assert (Hlog : forall w',
             accesses w'
             = accesses (looked_up icu locale (package, chain, leaf) w) ++ [Close] ->
             accesses w'
             = accesses w ++ Open package locale :: map GetByKeyWithFallback chain
                 ++ [GetStringByKeyWithFallback leaf; Close]).
  { intros w' ->. rewrite looked_up_accesses. unfold path_accesses.
    rewrite <- app_assoc. cbn [app]. rewrite <- app_assoc. reflexivity. }
  destruct Hwf as [Hfail|[pat Hres]].
  - rewrite extract_failed
      by (rewrite looked_up_status, U_SUCCESS_not_FAILURE, Hfail; reflexivity).
    eexists _, _. split; [reflexivity|]. apply Hlog. reflexivity.
  - apply resolves_to_answer in Hres. destruct Hres as [Hans Hsucc].
    rewrite Hans.
    destruct (extract_outcome pat cap (looked_up icu locale (package, chain, leaf) w))
      as (w' & E & Hacc & _).
    + rewrite looked_up_status. exact Hsucc.
    + rewrite looked_up_result. exact Hvalid.
    + eexists _, w'. split; [exact E|]. apply Hlog. exact Hacc.
Qed.

Lemma bundle_is_always_closed_witness :
  exists r w',
    call Fixture.store Fixture.ICUDATA_NAME (Some "en_US")
      (ListPattern UATIMEUNITSTYLE_ABBREVIATED UATIMEUNITLISTPAT_START_PIECE) 8
      (Fixture.fresh U_ZERO_ERROR (Some 8%nat))
    = Some (r, w') /\
    accesses w'
    = accesses (Fixture.fresh U_ZERO_ERROR (Some 8%nat))
      ++ Open None (Some "en_US")
         :: map GetByKeyWithFallback ["listPattern"; "unit-short"]
         ++ [GetStringByKeyWithFallback "start"; Close].
Proof.
  apply (bundle_is_always_closed Fixture.store Fixture.ICUDATA_NAME).
  - reflexivity.
  - simpl. lia.
  - reflexivity.
  - left. reflexivity.
Defined.

(** X5: with a store whose failing string lookup leaves the length cell alone,
    a call that fails before anything is copied returns 0: one with an
    undefined selector, one with a refused buffer/capacity pair, and also one
    whose lookup fails, because the length is initialised to 0 before the
    lookup and returned as it is.  (A call that fails by truncating, X1, is
    not of these kinds: it returns the pattern's length.) *)
Theorem failure_before_copy_returns_zero
    {B : Type} (icu : ResourceStore B) (NAME : string) (locale : option string)
    (f : entry) (cap : int32) (w : world) :
  leaves_length icu ->
  undefined_selector f \/
  ~ accepted_pair (result w) cap \/
  (exists path,
      stated_path NAME f = Some path /\
      U_FAILURE (snd (answer icu locale path (status w))) = true) ->
  exists w', call icu NAME locale f cap w = Some (0, w').
Proof.
  intros Hlen Hfail.
  destruct (U_FAILURE (status w)) eqn:Hst.
  { rewrite call_failed_entry by assumption. eexists. reflexivity. }
  destruct (accepted_pair_dec (result w) cap) as [Hok|Hbad].
  2:{ rewrite call_refused by assumption. eexists. reflexivity. }
  destruct Hfail as [Hsel|[Hbad|(path & Hpath & Hmiss)]].
  - rewrite call_undefined by (try assumption; apply stated_path_none; exact Hsel).
    eexists. reflexivity.
  - contradiction.
  - rewrite (call_lookup icu NAME locale f cap w path Hst Hok Hpath).
    rewrite extract_failed
      by (rewrite looked_up_status, U_SUCCESS_not_FAILURE, Hmiss; reflexivity).
    destruct path as [[package chain] leaf].
    unfold answer, resolution_path in *.
    rewrite (Hlen _ _ _ _ Hmiss). eexists. reflexivity.
Qed.

Lemma failure_before_copy_returns_zero_witness :
  exists w',
    call Fixture.store Fixture.ICUDATA_NAME (Some "en_US")
      (ListPattern UATIMEUNITSTYLE_ABBREVIATED UATIMEUNITLISTPAT_END_PIECE) 8
      (Fixture.fresh U_ZERO_ERROR (Some 8%nat))
    = Some (0, w').
Proof.
  apply (failure_before_copy_returns_zero Fixture.store Fixture.ICUDATA_NAME).
  - exact fixture_leaves_length.
  - right. right.
    exists (None, ["listPattern"; "unit-short"], "end").
    split; reflexivity.
Defined.

(** X6: the functions do not test the status between the store calls; with a
    store that keeps ICU's convention of leaving a failed status alone, the
    failure of the first step that fails, the open or any descent, is the
    status the caller gets, and the array is not written. *)
Theorem first_failure_surfaces
    {B : Type} (icu : ResourceStore B) (NAME : string) (locale : option string)
    (f : entry) (package : option string) (before after : list string)
    (leaf : string) (cap : int32) (w : world) :
  passes_failure icu ->
  succeeded (status w) ->
  accepted_pair (result w) cap ->
  stated_path NAME f = Some (package, before ++ after, leaf) ->
  U_FAILURE
    (snd (fold_left (descend icu) before (rs_open icu package locale (status w))))
  = true ->
  exists r w',
    call icu NAME locale f cap w = Some (r, w') /\
    status w'
    = snd (fold_left (descend icu) before (rs_open icu package locale (status w))) /\
    result w' = result w.
Proof.
  intros Hlaw Hst Hok Hpath Hfail.
  set (h := fold_left (descend icu) before (rs_open icu package locale (status w)))
    in *.
  assert (Hfinal : snd (answer icu locale (package, before ++ after, leaf) (status w))
                   = snd h).
  { unfold answer, resolution_path. rewrite fold_left_app. fold h.
    destruct Hlaw as [Hkey Hstr].
    rewrite Hstr
      by (rewrite (fold_descend_failure icu (conj Hkey Hstr)); exact Hfail).
    apply (fold_descend_failure icu (conj Hkey Hstr)). exact Hfail. }
  rewrite (call_lookup icu NAME locale f cap w _ Hst Hok Hpath).
  rewrite extract_failed
    by (rewrite looked_up_status, U_SUCCESS_not_FAILURE, Hfinal, Hfail; reflexivity).
  eexists _, _. split; [reflexivity|]. cbn [status result].
  rewrite looked_up_status, looked_up_result. split; [exact Hfinal|reflexivity].
Qed.

Lemma first_failure_surfaces_witness :
  exists r w',
    call Fixture.store "icudt00x" (Some "en")
      (TimePattern UATIMEUNITTIMEPAT_HM) 8 (Fixture.fresh U_ZERO_ERROR (Some 8%nat))
    = Some (r, w') /\
    status w'
    = snd (fold_left (descend Fixture.store) []
             (rs_open Fixture.store (Some "icudt00x-unit") (Some "en")
                (status (Fixture.fresh U_ZERO_ERROR (Some 8%nat))))) /\
    result w' = result (Fixture.fresh U_ZERO_ERROR (Some 8%nat)).
Proof.
  apply (first_failure_surfaces Fixture.store "icudt00x" (Some "en")
           (TimePattern UATIMEUNITTIMEPAT_HM) (Some "icudt00x-unit")
           [] ["durationUnits"] "hm").
  - exact fixture_passes_failure.
  - reflexivity.
  - simpl. lia.
  - reflexivity.
  - reflexivity.
Defined.

(** ** The status across calls *)

(** X7: a zero-capacity call for a pattern that is not empty returns the
    pattern's length and leaves the buffer-overflow error in the status; any
    further call of either function entered with that status, whatever its
    arguments, returns 0 and writes nothing.  The caller has to reset the
    status between the preflight and the fill. *)
Theorem preflight_status_must_be_reset
    {B : Type} (icu : ResourceStore B) (NAME : string) (locale : option string)
    (f : entry) (path : option string * list string * string)
    (pat : list UChar) (w : world) :
  succeeded (status w) ->
  valid_pair (result w) 0 ->
  stated_path NAME f = Some path ->
  resolves_to (answer icu locale path (status w)) pat ->
  pat <> [] ->
  exists w0,
    call icu NAME locale f 0 w = Some (Z.of_nat (List.length pat), w0) /\
    status w0 = U_BUFFER_OVERFLOW_ERROR /\
    forall locale' f' arr cap,
      call icu NAME locale' f' cap (mkWorld (status w0) (Some arr) (accesses w0))
      = Some (0, mkWorld (status w0) (Some arr) (accesses w0)).
Proof.
  intros Hst Hvalid Hpath Hres Hne.
  apply resolves_to_answer in Hres. destruct Hres as [Hans Hsucc].
  rewrite (call_lookup icu NAME locale f 0 w path Hst
             (valid_pair_accepted _ _ Hvalid) Hpath).
  rewrite Hans.
  destruct (extract_outcome pat 0 (looked_up icu locale path w))
    as (w0 & E & _ & _ & Hstatus).
  - rewrite looked_up_status. exact Hsucc.
  - rewrite looked_up_result. exact Hvalid.
  - assert (Hpos : 0 < Z.of_nat (List.length pat))
      by (destruct pat; [contradiction|simpl; lia]).
    destruct (Z.ltb_spec (Z.of_nat (List.length pat)) 0) as [Hneg|_] in Hstatus;
      [lia|].
    destruct (Z.eqb_spec (Z.of_nat (List.length pat)) 0) as [Hz|_] in Hstatus;
      [lia|].
    exists w0. split; [exact E|]. split; [exact Hstatus|].
    intros locale' f' arr cap. apply call_failed_entry.
    cbn [status]. rewrite Hstatus. reflexivity.
Qed.

Lemma preflight_status_must_be_reset_witness :
  exists w0,
    call Fixture.store Fixture.ICUDATA_NAME (Some "en_US")
      (TimePattern UATIMEUNITTIMEPAT_HMS) 0 (Fixture.fresh U_ZERO_ERROR None)
    = Some (Z.of_nat (List.length (Fixture.utf16 "h:mm:ss")), w0) /\
    status w0 = U_BUFFER_OVERFLOW_ERROR /\
    forall locale' f' arr cap,
      call Fixture.store Fixture.ICUDATA_NAME locale' f' cap
        (mkWorld (status w0) (Some arr) (accesses w0))
      = Some (0, mkWorld (status w0) (Some arr) (accesses w0)).
Proof.
  apply (preflight_status_must_be_reset Fixture.store Fixture.ICUDATA_NAME
           (Some "en_US") (TimePattern UATIMEUNITTIMEPAT_HMS)
           (Some "icudt74l-unit", ["durationUnits"], "hms")).
  - reflexivity.
  - reflexivity.
  - reflexivity.
  - repeat split; reflexivity.
  - discriminate.
Defined.

(** X8: when the pattern and its terminator fit, the status the caller gets is
    the status the store left, so a warning of the store (a fallback warning,
    say) reaches the caller; only the string-not-terminated warning is
    replaced, by plain success. *)
Theorem store_warning_reaches_caller
    {B : Type} (icu : ResourceStore B) (NAME : string) (locale : option string)
    (f : entry) (path : option string * list string * string)
    (pat : list UChar) (cap : int32) (w : world) :
  succeeded (status w) ->
  valid_pair (result w) cap ->
  stated_path NAME f = Some path ->
  resolves_to (answer icu locale path (status w)) pat ->
  Z.of_nat (List.length pat) < cap ->
  exists w',
    call icu NAME locale f cap w = Some (Z.of_nat (List.length pat), w') /\
    status w'
    = if snd (answer icu locale path (status w)) =? U_STRING_NOT_TERMINATED_WARNING
      then U_ZERO_ERROR
      else snd (answer icu locale path (status w)).
Proof.
  intros Hst Hvalid Hpath Hres Hfit.
  apply resolves_to_answer in Hres. destruct Hres as [Hans Hsucc].
  rewrite (call_lookup icu NAME locale f cap w path Hst
             (valid_pair_accepted _ _ Hvalid) Hpath).
  rewrite Hans.
  destruct (extract_outcome pat cap (looked_up icu locale path w))
    as (w' & E & _ & _ & Hstatus).
  - rewrite looked_up_status. exact Hsucc.
  - rewrite looked_up_result. exact Hvalid.
  - destruct (Z.ltb_spec (Z.of_nat (List.length pat)) cap) as [_|Hge] in Hstatus;
      [|lia].
    rewrite looked_up_status in Hstatus.
    exists w'. split; [exact E|exact Hstatus].
Qed.

Lemma store_warning_reaches_caller_witness :
  exists w',
    call Fixture.store Fixture.ICUDATA_NAME (Some "en_US")
      (TimePattern UATIMEUNITTIMEPAT_HM) 6 (Fixture.fresh (-128) (Some 6%nat))
    = Some (Z.of_nat (List.length (Fixture.utf16 "h.mm")), w') /\
    status w'
    = if snd (answer Fixture.store (Some "en_US")
                (Some "icudt74l-unit", ["durationUnits"], "hm")
                (status (Fixture.fresh (-128) (Some 6%nat))))
         =? U_STRING_NOT_TERMINATED_WARNING
      then U_ZERO_ERROR
      else snd (answer Fixture.store (Some "en_US")
                  (Some "icudt74l-unit", ["durationUnits"], "hm")
                  (status (Fixture.fresh (-128) (Some 6%nat)))).
Proof.
  apply (store_warning_reaches_caller Fixture.store Fixture.ICUDATA_NAME
           (Some "en_US") (TimePattern UATIMEUNITTIMEPAT_HM)
           (Some "icudt74l-unit", ["durationUnits"], "hm")).
  - reflexivity.
  - simpl. lia.
  - reflexivity.
  - repeat split; reflexivity.
  - simpl. lia.
Defined.

(** ** A string with a NUL inside *)

Lemma strncpy_loop_stops (n : nat) :
  forall (pre tail dst : list UChar),
    text pre -> (n <= List.length dst)%nat ->
    strncpy_loop n dst (pre ++ 0 :: tail)
    = Some (firstn n (pre ++ [0]) ++ skipn (Nat.min n (S (List.length pre))) dst).
Proof.
  induction n as [|n IH]; intros pre tail dst Htext Hlen.
  - reflexivity.
  - destruct dst as [|d dst']; [simpl in Hlen; lia|].
    destruct pre as [|c pre'].
    + simpl. destruct n; reflexivity.
    + inversion Htext as [|? ? Hc Hrest]; subst.
      cbn [app strncpy_loop].
      apply Z.eqb_neq in Hc. rewrite Hc.
      rewrite (IH pre' tail dst' Hrest) by (simpl in Hlen; lia).
      reflexivity.
Qed.

(** The String Extractor step on a string with a NUL inside that fits. *)
Lemma extract_embedded (pre post arr : list UChar) (cap : int32) (w : world) :
  U_SUCCESS (status w) = true ->
  result w = Some arr ->
  text pre ->
  Z.of_nat (List.length (pre ++ 0 :: post)) < cap <= Z.of_nat (List.length arr) ->
  exists w',
    extract_string (Some ((pre ++ 0 :: post) ++ [0]),
                    Z.of_nat (List.length (pre ++ 0 :: post))) cap w
    = Some (Z.of_nat (List.length (pre ++ 0 :: post)), w') /\
    result w'
    = Some (pre ++ 0 :: firstn (List.length post) (skipn (S (List.length pre)) arr)
                ++ 0 :: skipn (S (List.length (pre ++ 0 :: post))) arr).
Proof.
  intros Hsucc Harr Htext Hfit.
  set (len := List.length (pre ++ 0 :: post)) in *.
  assert (Hlen : len = (List.length pre + S (List.length post))%nat)
    by (unfold len; rewrite length_app; reflexivity).
  set (arr1 := (pre ++ [0]) ++ skipn (S (List.length pre)) arr).
  assert (Hcopy : strncpy_loop (Z.to_nat cap) arr ((pre ++ 0 :: post) ++ [0])
                  = Some arr1).
  { rewrite <- app_assoc. cbn [app].
    etransitivity;
      [apply (strncpy_loop_stops (Z.to_nat cap) pre (post ++ [0]) arr Htext); lia|].
    replace (Nat.min (Z.to_nat cap) (S (List.length pre)))
      with (S (List.length pre)) by lia.
    rewrite firstn_all2 by (rewrite length_app; simpl; lia).
    reflexivity. }
  assert (Hsize : List.length arr1 = List.length arr).
  { unfold arr1. rewrite !length_app, length_skipn. simpl. lia. }
  assert (Hstore : store_at arr1 (Z.to_nat (Z.of_nat len)) 0
                   = Some (pre ++ 0 :: firstn (List.length post)
                                         (skipn (S (List.length pre)) arr)
                               ++ 0 :: skipn (S len) arr)).
  { rewrite Nat2Z.id, store_at_spec by lia.
    f_equal. unfold arr1.
    rewrite firstn_app, skipn_app, !length_app. cbn [List.length].
    rewrite (@firstn_all2 _ len (pre ++ [0])) by (rewrite length_app; simpl; lia).
    rewrite (@skipn_all2 _ (S len) (pre ++ [0])) by (rewrite length_app; simpl; lia).
    replace (len - (List.length pre + 1))%nat with (List.length post) by lia.
    replace (S len - (List.length pre + 1))%nat with (S (List.length post)) by lia.
    rewrite skipn_skipn.
    replace (S (List.length post) + S (List.length pre))%nat with (S len) by lia.
    rewrite <- !app_assoc. reflexivity. }
  unfold extract_string, bind, get_status, u_terminateUChars, u_strncpy,
    store_result, record, set_status, ret.
  cbn -[skipn firstn]. rewrite Hsucc, Harr.
  destruct (Z.leb_spec cap 0) as [Hle|_]; [lia|].
  rewrite Hcopy. cbn -[skipn firstn]. rewrite Hsucc.
  destruct (Z.ltb_spec (Z.of_nat len) 0) as [Hneg|_]; [lia|].
  destruct (Z.ltb_spec (Z.of_nat len) cap) as [_|Hge]; [|lia].
  unfold bind. cbn -[skipn firstn].
  destruct (Z.ltb_spec (Z.of_nat len) 0) as [Hneg|_]; [lia|].
  rewrite Hstore.
  destruct (status w =? U_STRING_NOT_TERMINATED_WARNING);
    eexists; split; reflexivity.
Qed.

(** X9: the copy is bounded by the capacity and by the first NUL of the
    string, not by the reported length.  For a string with a NUL inside that
    fits, the units up to and including that NUL are copied, the units of the
    array between it and the reported length keep their old values, a NUL is
    stored at the index of the reported length, and the reported length is
    returned. *)
Theorem copy_stops_at_embedded_nul
    {B : Type} (icu : ResourceStore B) (NAME : string) (locale : option string)
    (f : entry) (path : option string * list string * string)
    (pre post arr : list UChar) (cap : int32) (w : world) :
  succeeded (status w) ->
  result w = Some arr ->
  cap <= Z.of_nat (List.length arr) ->
  stated_path NAME f = Some path ->
  resolves_to (answer icu locale path (status w)) (pre ++ 0 :: post) ->
  text pre ->
  Z.of_nat (List.length (pre ++ 0 :: post)) < cap ->
  exists w',
    call icu NAME locale f cap w
    = Some (Z.of_nat (List.length (pre ++ 0 :: post)), w') /\
    result w'
    = Some (pre ++ 0 :: firstn (List.length post) (skipn (S (List.length pre)) arr)
                ++ 0 :: skipn (S (List.length (pre ++ 0 :: post))) arr).
Proof.
  intros Hst Harr Hcap Hpath Hres Htext Hfit.
  apply resolves_to_answer in Hres. destruct Hres as [Hans Hsucc].
  rewrite (call_lookup icu NAME locale f cap w path Hst) by
    (try assumption; rewrite Harr; simpl; lia).
  rewrite Hans.
  apply extract_embedded.
  - rewrite looked_up_status. exact Hsucc.
  - rewrite looked_up_result. exact Harr.
  - exact Htext.
  - lia.
Qed.

Lemma copy_stops_at_embedded_nul_witness :
  exists w',
    call nul_store "icudt74l" (Some "en")
      (TimePattern UATIMEUNITTIMEPAT_HM) 5 (Fixture.fresh U_ZERO_ERROR (Some 6%nat))
    = Some (Z.of_nat (List.length ([97] ++ 0 :: [98])), w') /\
    result w'
    = Some ([97] ++ 0 :: firstn (List.length [98])
                           (skipn (S (List.length [97])) (repeat 65535 6))
                 ++ 0 :: skipn (S (List.length ([97] ++ 0 :: [98]))) (repeat 65535 6)).
Proof.
  apply (copy_stops_at_embedded_nul nul_store "icudt74l" (Some "en")
           (TimePattern UATIMEUNITTIMEPAT_HM)
           (Some "icudt74l-unit", ["durationUnits"], "hm")).
  - reflexivity.
  - reflexivity.
  - simpl. lia.
  - reflexivity.
  - repeat split; reflexivity.
  - text_literal.
  - simpl. lia.
Defined.

Example run_embedded_nul :
  call nul_store "icudt74l" (Some "en")
    (TimePattern UATIMEUNITTIMEPAT_HM) 5 (Fixture.fresh U_ZERO_ERROR (Some 6%nat))
  = Some (3, mkWorld U_ZERO_ERROR (Some [97; 0; 65535; 0; 65535; 65535])
               [Open (Some "icudt74l-unit") (Some "en");
                GetByKeyWithFallback "durationUnits";
                GetStringByKeyWithFallback "hm"; Close]).
Proof. reflexivity. Qed.

(** ** The key tables *)

(** X10: the switch statements map distinct defined selectors to distinct
    keys, with one exception: two time-pattern kinds that select the same key
    are the same kind, two list positions that select the same key are the
    same position, and two styles that select the same key are the same style
    unless the key is "unit-narrow". *)
Theorem selector_keys_are_distinct :
  (forall t1 t2 key,
      timePatternKey t1 = Some key -> timePatternKey t2 = Some key -> t1 = t2) /\
  (forall t1 t2 key,
      listTypeKey t1 = Some key -> listTypeKey t2 = Some key -> t1 = t2) /\
  (forall s1 s2 key,
      listStyleKey s1 = Some key -> listStyleKey s2 = Some key ->
      s1 = s2 \/ key = "unit-narrow").
Proof.
  unfold timePatternKey, listTypeKey, listStyleKey.
  repeat split; intros a b key Ha Hb;
    repeat match type of Ha with
      | context [?x =? ?y] => destruct (Z.eqb_spec x y); [subst x|]
      end;
    repeat match type of Hb with
      | context [?x =? ?y] => destruct (Z.eqb_spec x y); [subst x|]
      end;
    first [discriminate | reflexivity | congruence
          | left; reflexivity | right; congruence].
Qed.

Lemma selector_keys_are_distinct_witness :
  (UATIMEUNITTIMEPAT_MS = 2) /\
  (UATIMEUNITLISTPAT_END_PIECE = 1) /\
  (UATIMEUNITSTYLE_NARROW = UATIMEUNITSTYLE_SHORTER \/ "unit-narrow" = "unit-narrow").
Proof.
  destruct selector_keys_are_distinct as (Hkind & Hpos & Hstyle).
  split; [|split].
  - apply (Hkind UATIMEUNITTIMEPAT_MS 2 "ms"); reflexivity.
  - apply (Hpos UATIMEUNITLISTPAT_END_PIECE 1 "end"); reflexivity.
  - apply (Hstyle UATIMEUNITSTYLE_NARROW UATIMEUNITSTYLE_SHORTER "unit-narrow");
      reflexivity.
Defined.
